(** * Clipboard History Manager: the history engine and its persistence adapter

    A shallow embedding of [src/clipboardManager.ts], [src/storage.ts] and
    [src/types.ts].  The engine is a capped, pinnable, most-recent-first list
    of clipboard captures; every method of the TypeScript class becomes a
    function on an explicit engine state, the host (VS Code) is reduced to
    what the engine can observe of it: the text the clipboard hands back, the
    clock, the random source, the regular-expression engine, the key-value
    store behind [globalState], and the trace of calls the engine makes on the
    host.

    Conventions.
    - A JavaScript [number] that holds a count, an instant or a setting is a
      [Z]: [Date.now()] and the settings the extension reads are integers.
    - A JavaScript string is a [string]; its [length] is [String.length].
    - Arrays are [seq]; [Array.prototype.sort] is MathComp's stable [sort]. *)

From Stdlib Require Import ZArith Lia String Ascii DecimalString.
From Stdlib Require Import Decimal DecimalPos DecimalZ.
From HB Require Import structures.
From mathcomp Require Import ssreflect ssrfun ssrbool eqtype ssrnat seq path.

Set Implicit Arguments.
Unset Strict Implicit.
Unset Printing Implicit Defensive.

(** ** Equality structures for the host types *)

HB.instance Definition _ := hasDecEq.Build Z Z.eqb_spec.
HB.instance Definition _ := hasDecEq.Build string String.eqb_spec.

(** ** [types.ts] *)

Inductive ContentType := text | code.

Definition ContentType_eqb (a b : ContentType) : bool :=
  match a, b with
  | text, text | code, code => true
  | _, _ => false
  end.

Lemma ContentType_eqP : Equality.axiom ContentType_eqb.
Proof. by case; case; constructor. Qed.

HB.instance Definition _ := hasDecEq.Build ContentType ContentType_eqP.

Record ClipboardEntry := mkEntry {
  id : string;
  content : string;
  timestamp : Z;
  isPinned : bool;
  sourceFile : option string;
  lineCount : nat;
  contentType : ContentType
}.

Definition entry_tuple (e : ClipboardEntry) :=
  (id e, content e, timestamp e, isPinned e, sourceFile e, lineCount e,
   contentType e).

Definition tuple_entry
  (t : string * string * Z * bool * option string * nat * ContentType) :=
  let: (i, c, ts, p, sf, lc, ct) := t in mkEntry i c ts p sf lc ct.

Lemma entry_tupleK : cancel entry_tuple tuple_entry.
Proof. by case. Qed.

HB.instance Definition _ :=
  Equality.copy ClipboardEntry (can_type entry_tupleK).

Record ClipboardManagerConfig := mkConfig {
  maxHistorySize : Z;
  showTimestamp : bool;
  enableNotifications : bool;
  autoCleanupDays : Z;
  excludePatterns : seq string;
  monitoringInterval : Z;
  previewLength : Z
}.

Record SerializedHistory := mkHistory {
  sh_entries : seq ClipboardEntry;
  sh_version : string
}.

(** ** JavaScript built-ins used by the engine *)

Section ArrayBuiltins.
Variable T : Type.

(** [Array.prototype.find]: the first element that satisfies [p];
    [None] is [undefined]. *)
Fixpoint Array_find (p : pred T) (s : seq T) : option T :=
  if s is x :: s' then (if p x then Some x else Array_find p s') else None.

(** [Array.prototype.findIndex]: [None] is the source's [-1]. *)
Definition Array_findIndex (p : pred T) (s : seq T) : option nat :=
  if has p s then Some (find p s) else None.

(** [a.splice(index, 1)]: what is left of the array. *)
Definition Array_splice1 (index : nat) (s : seq T) : seq T :=
  take index s ++ drop index.+1 s.

(** [a.splice(start)]: what is left of the array.  A negative [start]
    counts from the end, and the start is clamped to [0 .. length]. *)
Definition Array_splice_from (start : Z) (s : seq T) : seq T :=
  let len := Z.of_nat (size s) in
  let actualStart :=
    if (start <? 0)%Z then Z.max (len + start) 0 else Z.min start len in
  take (Z.to_nat actualStart) s.

(** [Array.prototype.sort(compare)].  ECMAScript requires the sort to be
    stable, and the engine's comparator is a consistent one (a total
    preorder), for which the stable sorted arrangement is unique. *)
Definition Array_sort (compare : T -> T -> Z) (s : seq T) : seq T :=
  sort (fun a b => (compare a b <=? 0)%Z) s.

(** Assignment to a field of the object that [find] returned: the first
    element satisfying [p] is updated in place. *)
Fixpoint update_found (p : pred T) (f : T -> T) (s : seq T) : seq T :=
  if s is x :: s' then
    (if p x then f x :: s' else x :: update_found p f s')
  else [::].

End ArrayBuiltins.

Section StringBuiltins.

Definition LF : ascii := ascii_of_nat 10.

(** [Number.prototype.toString] on an integer, as a template literal
    renders [Date.now()]. *)
Definition Number_toString (n : Z) : string :=
  NilZero.string_of_int (Z.to_int n).

(** [content.split('\n').length] *)
Fixpoint split_LF_length (s : string) : nat :=
  match s with
  | EmptyString => 1
  | String c s' =>
      if Ascii.eqb c LF then (split_LF_length s').+1 else split_LF_length s'
  end.

(** [content.replace(/\n/g, ' ')] *)
Fixpoint replace_LF_space (s : string) : string :=
  match s with
  | EmptyString => EmptyString
  | String c s' =>
      String (if Ascii.eqb c LF then " "%char else c) (replace_LF_space s')
  end.

(** White space and line terminators among the code units below 256. *)
Definition isSpace (c : ascii) : bool :=
  let n := nat_of_ascii c in
  [|| (9 <= n) && (n <= 13), n == 32 | n == 160].

Fixpoint trimStart (s : string) : string :=
  match s with
  | EmptyString => EmptyString
  | String c s' => if isSpace c then trimStart s' else s
  end.

Fixpoint trimEnd (s : string) : string :=
  match s with
  | EmptyString => EmptyString
  | String c s' =>
      match trimEnd s' with
      | EmptyString => if isSpace c then EmptyString else String c EmptyString
      | t => String c t
      end
  end.

(** [String.prototype.trim] *)
Definition String_trim (s : string) : string := trimEnd (trimStart s).

(** [s.substring(0, n)]: a negative end is taken as [0]. *)
Definition substring0 (n : Z) (s : string) : string :=
  String.substring 0 (Z.to_nat n) s.

End StringBuiltins.

(** ** [storage.ts]: the persistence adapter *)

Definition STORAGE_KEY : string := "clipboardHistory".
Definition STORAGE_VERSION : string := "1.0.0".

(** What [globalState.get] may hand back for a key: an object whose
    [entries] and [version] fields are there or not.  [saveHistory] only ever
    writes objects with both. *)
Record Stored := mkStored {
  stored_entries : option (seq ClipboardEntry);
  stored_version : option string
}.

Definition Stored_of (data : SerializedHistory) : Stored :=
  mkStored (Some (sh_entries data)) (Some (sh_version data)).

(** The host's [Memento]: [None] is [undefined]. *)
Definition Memento := string -> option Stored.

Definition Memento_empty : Memento := fun _ => None.

Definition Memento_get (m : Memento) (key : string) : option Stored := m key.

Definition Memento_update (key : string) (value : option Stored) (m : Memento)
  : Memento :=
  fun k => if k == key then value else m k.

Module StorageManager.

Definition saveHistory (entries : seq ClipboardEntry) (m : Memento) : Memento :=
  let data := mkHistory entries STORAGE_VERSION in
  Memento_update STORAGE_KEY (Some (Stored_of data)) m.

(** [!data || !data.entries]: an absent record and a record without an
    [entries] field both give the empty list; an empty array is truthy and
    is returned as it is. *)
Definition loadHistory (m : Memento) : seq ClipboardEntry :=
  match Memento_get m STORAGE_KEY with
  | None => [::]
  | Some data =>
      match stored_entries data with
      | None => [::]
      | Some entries => entries
      end
  end.

Definition clearHistory (m : Memento) : Memento :=
  Memento_update STORAGE_KEY None m.

(** The [entryCount] of [getStorageStats]; [data?.entries.length] raises a
    [TypeError] on a record that has no [entries], which is the [None]. *)
Definition getStorageStats_entryCount (m : Memento) : option nat :=
  match Memento_get m STORAGE_KEY with
  | None => Some 0
  | Some data =>
      match stored_entries data with
      | None => None
      | Some entries => Some (size entries)
      end
  end.

End StorageManager.

(** ** [clipboardManager.ts]: the history engine *)

(** The calls the engine makes on its host, in the order it makes them. *)
Inductive HostCall :=
| globalState_update (value : option Stored)
| onDidChange_fire
| onDidChange_dispose
| showInformationMessage (message : string)
| clipboard_writeText (value : string).

(** The private fields of [ClipboardManager], the store behind its
    [StorageManager], and the trace of host calls.  [timer] is the
    [monitoringInterval] handle: the period of the armed [setInterval], or
    [None] for [undefined]. *)
Record State := mkState {
  entries : seq ClipboardEntry;
  lastClipboardContent : string;
  timer : option Z;
  config : ClipboardManagerConfig;
  globalState : Memento;
  calls : seq HostCall
}.

Definition set_entries (es : seq ClipboardEntry) (st : State) : State :=
  mkState es (lastClipboardContent st) (timer st) (config st)
          (globalState st) (calls st).

Definition set_lastClipboardContent (c : string) (st : State) : State :=
  mkState (entries st) c (timer st) (config st) (globalState st) (calls st).

Definition set_timer (t : option Z) (st : State) : State :=
  mkState (entries st) (lastClipboardContent st) t (config st)
          (globalState st) (calls st).

Definition set_config (cfg : ClipboardManagerConfig) (st : State) : State :=
  mkState (entries st) (lastClipboardContent st) (timer st) cfg
          (globalState st) (calls st).

(** A call on the host is appended to the trace. *)
Definition call (c : HostCall) (st : State) : State :=
  mkState (entries st) (lastClipboardContent st) (timer st) (config st)
          (globalState st) (rcons (calls st) c).

(** [this.storage.saveHistory(this.entries)]: the host's store is assumed
    to accept the write. *)
Definition storage_saveHistory (st : State) : State :=
  let m := StorageManager.saveHistory (entries st) (globalState st) in
  call (globalState_update (Memento_get m STORAGE_KEY))
       (mkState (entries st) (lastClipboardContent st) (timer st) (config st)
                m (calls st)).

Definition storage_clearHistory (st : State) : State :=
  let m := StorageManager.clearHistory (globalState st) in
  call (globalState_update None)
       (mkState (entries st) (lastClipboardContent st) (timer st) (config st)
                m (calls st)).

(** [new ClipboardManager(storage, config)] *)
Definition constructor (m : Memento) (cfg : ClipboardManagerConfig) : State :=
  mkState [::] EmptyString None cfg m [::].

(** What one capture reads from the host: [Date.now()] and [Math.random()]
    inside [generateId], then [Date.now()] for the timestamp. *)
Record Capture := mkCapture {
  id_now : Z;
  id_random : string;
  now : Z
}.

Inductive Completion := Normal | Throw.

Section Engine.

(** The host's regular-expression engine: [RegExp source flags] is the
    [test] method of the compiled expression, or [None] when the constructor
    throws a [SyntaxError]. *)
Variable RegExp : string -> string -> option (string -> bool).

Definition startMonitoring (st : State) : State :=
  set_timer (Some (monitoringInterval (config st))) st.

Definition stopMonitoring (st : State) : State :=
  if timer st is Some _ then set_timer None st else st.

Definition shouldExclude (st : State) (content : string) : bool :=
  has (fun pattern =>
         if RegExp pattern EmptyString is Some test then test content
         else false)
      (excludePatterns (config st)).

Definition getPreview (st : State) (content : string) : string :=
  let singleLine := String_trim (replace_LF_space content) in
  if (Z.of_nat (String.length singleLine) >? previewLength (config st))%Z
  then String.append (substring0 (previewLength (config st)) singleLine) "..."
  else singleLine.

Definition codePatterns : seq (string * string) :=
  [:: ("^(import|export|function|class|const|let|var|if|for|while)\s"%string,
       "m"%string);
      ("[{}[\];()]"%string, EmptyString);
      ("=>"%string, EmptyString);
      ("\/\/"%string, EmptyString);
      ("\/\*"%string, EmptyString) ].

Definition detectContentType (content : string) : ContentType :=
  if has (fun pattern =>
            if RegExp pattern.1 pattern.2 is Some test then test content
            else false)
         codePatterns
  then code else text.

Definition generateId (c : Capture) : string :=
  String.append (Number_toString (id_now c))
                (String.append "-" (id_random c)).

Definition addEntry (c : Capture) (content : string)
  (sourceFile : option string) (st : State) : State :=
  let entry :=
    mkEntry (generateId c) content (now c) false sourceFile
            (split_LF_length content) (detectContentType content) in
  let entries1 := entry :: entries st in
  let pinnedEntries := [seq e <- entries1 | isPinned e] in
  let unpinnedEntries := [seq e <- entries1 | ~~ isPinned e] in
  let unpinnedEntries :=
    if (Z.of_nat (size unpinnedEntries) >? maxHistorySize (config st))%Z
    then Array_splice_from (maxHistorySize (config st)) unpinnedEntries
    else unpinnedEntries in
  let st := set_entries (pinnedEntries ++ unpinnedEntries) st in
  let st := storage_saveHistory st in
  let st := call onDidChange_fire st in
  if enableNotifications (config st)
  then call (showInformationMessage
               (String.append "Clipboard updated: " (getPreview st content))) st
  else st.

(** One polling tick.  [read] is what [clipboard.readText()] resolves to;
    [None] is a rejected read, which the [catch] swallows. *)
Definition checkClipboard (read : option string) (c : Capture) (st : State)
  : State :=
  match read with
  | None => st
  | Some currentContent =>
      if (currentContent != EmptyString)
         && (currentContent != lastClipboardContent st)
      then
        let st := set_lastClipboardContent currentContent st in
        if shouldExclude st currentContent then st
        else if (0 < size (entries st))
                && (if entries st is e0 :: _ then content e0 == currentContent
                    else false)
        then st
        else addEntry c currentContent None st
      else st
  end.

Definition getEntries (st : State) : seq ClipboardEntry := entries st.

Definition getEntry (i : string) (st : State) : option ClipboardEntry :=
  Array_find (fun e => id e == i) (entries st).

Definition deleteEntry (i : string) (st : State) : State :=
  match Array_findIndex (fun e => id e == i) (entries st) with
  | Some index =>
      let st := set_entries (Array_splice1 index (entries st)) st in
      let st := storage_saveHistory st in
      call onDidChange_fire st
  | None => st
  end.

(** The comparator of [togglePin]'s re-sort. *)
Definition pinCompare (a b : ClipboardEntry) : Z :=
  if isPinned a && ~~ isPinned b then (-1)%Z
  else if ~~ isPinned a && isPinned b then 1%Z
  else (timestamp b - timestamp a)%Z.

Definition flipPinned (e : ClipboardEntry) : ClipboardEntry :=
  mkEntry (id e) (content e) (timestamp e) (~~ isPinned e) (sourceFile e)
          (lineCount e) (contentType e).

Definition togglePin (i : string) (st : State) : State :=
  match Array_find (fun e => id e == i) (entries st) with
  | Some _ =>
      let es := update_found (fun e => id e == i) flipPinned (entries st) in
      let st := set_entries (Array_sort pinCompare es) st in
      let st := storage_saveHistory st in
      call onDidChange_fire st
  | None => st
  end.

Definition clearHistory (st : State) : State :=
  let st := set_entries [::] st in
  let st := storage_clearHistory st in
  call onDidChange_fire st.

Definition copyToClipboard (i : string) (st : State) : State :=
  match Array_find (fun e => id e == i) (entries st) with
  | Some entry =>
      let st := set_lastClipboardContent (content entry) st in
      let st := call (clipboard_writeText (content entry)) st in
      call (showInformationMessage "Copied to clipboard") st
  | None => st
  end.

(** [dateNow] is the [Date.now()] of the sweep. *)
Definition cleanupOldEntries (dateNow : Z) (st : State) : State :=
  let cutoffTime :=
    (dateNow - autoCleanupDays (config st) * 24 * 60 * 60 * 1000)%Z in
  let originalLength := size (entries st) in
  let st :=
    set_entries
      [seq e <- entries st | isPinned e || (timestamp e >? cutoffTime)%Z] st in
  if size (entries st) < originalLength then storage_saveHistory st else st.

(** [initialize]: a rejected first [readText] leaves through the caller
    with the history loaded and swept and no timer armed. *)
Definition initialize (dateNow : Z) (read : option string) (st : State)
  : Completion * State :=
  let st := set_entries (StorageManager.loadHistory (globalState st)) st in
  let st := cleanupOldEntries dateNow st in
  match read with
  | None => (Throw, st)
  | Some clip => (Normal, startMonitoring (set_lastClipboardContent clip st))
  end.

Definition updateConfig (cfg : ClipboardManagerConfig) (st : State) : State :=
  let st := set_config cfg st in
  startMonitoring (stopMonitoring st).

Definition dispose (st : State) : State :=
  call onDidChange_dispose (stopMonitoring st).

End Engine.

(** ** Sessions and reachable states *)

(** What can happen to an engine: the extension is activated (a manager is
    constructed over the store as the last session left it, and
    initialized), the timer ticks while it is armed, a command of
    [extension.ts] or a caller of the public interface invokes a method, or
    the settings change.  An operation runs to completion before the next
    one starts.  Every method changes the list and the baseline before its
    first [await], so these and the store do not depend on how calls
    overlap in time; the order of the trace across operations is that of
    calls that do not overlap. *)
Inductive Op :=
| Activate (cfg : ClipboardManagerConfig) (dateNow : Z) (read : option string)
| Tick (read : option string) (c : Capture)
| AddEntry (c : Capture) (content : string) (sourceFile : option string)
| DeleteEntry (i : string)
| TogglePin (i : string)
| ClearHistory
| CopyToClipboard (i : string)
| UpdateConfig (cfg : ClipboardManagerConfig)
| Dispose.

Section Sessions.
Variable RegExp : string -> string -> option (string -> bool).

Definition perform (op : Op) (st : State) : State :=
  match op with
  | Activate cfg dateNow read =>
      (initialize dateNow read (constructor (globalState st) cfg)).2
  | Tick read c =>
      if timer st is Some _ then checkClipboard RegExp read c st else st
  | AddEntry c content sourceFile => addEntry RegExp c content sourceFile st
  | DeleteEntry i => deleteEntry i st
  | TogglePin i => togglePin i st
  | ClearHistory => clearHistory st
  | CopyToClipboard i => copyToClipboard i st
  | UpdateConfig cfg => updateConfig cfg st
  | Dispose => dispose st
  end.

Definition run (ops : seq Op) (st : State) : State :=
  foldl (fun s op => perform op s) st ops.

(** The states an installation can be in: it starts with an empty store. *)
Inductive reachable : State -> Prop :=
| reachable_install cfg : reachable (constructor Memento_empty cfg)
| reachable_perform op st : reachable st -> reachable (perform op st).

End Sessions.

(** ** Observations on a list of entries *)

Definition unpinnedCount (es : seq ClipboardEntry) : nat :=
  count (fun e => ~~ isPinned e) es.

(** Every pinned entry precedes every unpinned one: no unpinned entry is
    followed, however far, by a pinned one. *)
Definition pinnedFirst (es : seq ClipboardEntry) : bool :=
  pairwise (fun a b => isPinned b ==> isPinned a) es.

(** The unpinned segment of the list. *)
Definition unpinnedSegment (es : seq ClipboardEntry) : seq ClipboardEntry :=
  [seq e <- es | ~~ isPinned e].

(** The order [togglePin] sorts by: pinned entries first, then the later
    timestamp first. *)
Definition pinOrder : rel ClipboardEntry :=
  fun a b => (pinCompare a b <=? 0)%Z.

(** ** Auxiliary definitions for the proofs *)

Section Auxiliary.
Variable RegExp : string -> string -> option (string -> bool).

(** The entry that [addEntry] builds. *)
Definition capturedEntry (c : Capture) (content : string)
  (sourceFile : option string) : ClipboardEntry :=
  mkEntry (generateId c) content (now c) false sourceFile
          (split_LF_length content) (detectContentType RegExp content).

End Auxiliary.

(** The cap of [addEntry] on the unpinned entries. *)
Definition capUnpinned (maxSize : Z) (unpinned : seq ClipboardEntry) :=
  if (Z.of_nat (size unpinned) >? maxSize)%Z
  then Array_splice_from maxSize unpinned else unpinned.

(** The test of the sweep's [filter]. *)
Definition survivesSweep (dateNow : Z) (cfg : ClipboardManagerConfig)
  (e : ClipboardEntry) : bool :=
  isPinned e
  || (timestamp e >? dateNow - autoCleanupDays cfg * 24 * 60 * 60 * 1000)%Z.

(** The list that a new session would load. *)
Definition storedEntries (st : State) : seq ClipboardEntry :=
  StorageManager.loadHistory (globalState st).

(** The list in memory and the list in the store both have their pinned
    entries first. *)
Definition orderInvariant (st : State) : bool :=
  pinnedFirst (entries st) && pinnedFirst (storedEntries st).

(** ** Sample sessions *)

(** A small regular-expression engine for the examples: a pattern is read
    as a literal and matches the texts that contain it. *)
Definition literalRegExp : string -> string -> option (string -> bool) :=
  fun source _ => Some (fun s => isSome (String.index 0 source s)).

(** The settings of [getConfiguration()] when the user has set nothing. *)
Definition defaultConfig : ClipboardManagerConfig :=
  mkConfig 100 true false 7 [::] 500 50.

(** The same with a history of one entry. *)
Definition oneEntryConfig : ClipboardManagerConfig :=
  mkConfig 1 true false 7 [::] 500 50.

Definition install (cfg : ClipboardManagerConfig) : State :=
  constructor Memento_empty cfg.

(** A capture at instant [t] whose random suffix is [r]: its id is
    [t-r]. *)
Definition captureAt (t : Z) (r : string) : Capture := mkCapture t r t.

(** The user copies P, pins it, then copies B. *)
Definition pinThenCopy (cfg : ClipboardManagerConfig) : seq Op :=
  [:: Activate cfg 1000 (Some EmptyString);
      Tick (Some "P"%string) (captureAt 2000 "p");
      TogglePin "2000-p"%string;
      Tick (Some "B"%string) (captureAt 3000 "b") ].

(** The state that session leaves behind on a fresh installation. *)
Definition afterPinThenCopy (cfg : ClipboardManagerConfig) : State :=
  run literalRegExp (pinThenCopy cfg) (install cfg).

(** The user copies A, B and C, and pins C. *)
Definition copyThreePinLast : seq Op :=
  [:: Activate defaultConfig 1000 (Some EmptyString);
      Tick (Some "A"%string) (captureAt 2000 "a");
      Tick (Some "B"%string) (captureAt 3000 "b");
      Tick (Some "C"%string) (captureAt 4000 "c");
      TogglePin "4000-c"%string ].

(** The user copies A, the system clock is set back a second, and the user
    copies B. *)
Definition clockSetBack : seq Op :=
  [:: Activate defaultConfig 1000 (Some EmptyString);
      Tick (Some "A"%string) (captureAt 3000 "a");
      Tick (Some "B"%string) (captureAt 2000 "b") ].

(** With P pinned and B the latest capture, the user copies P again and
    then B again. *)
Definition copyAgain : seq Op :=
  pinThenCopy defaultConfig ++
  [:: Tick (Some "P"%string) (captureAt 4000 "q");
      Tick (Some "B"%string) (captureAt 5000 "c") ].

(** The user copies A at instant 2000 and the session ends. *)
Definition copyOnce : seq Op :=
  [:: Activate defaultConfig 1000 (Some EmptyString);
      Tick (Some "A"%string) (captureAt 2000 "a") ].

(** Two calls of [addEntry] within the same millisecond. *)
Definition addTwiceSameInstant : seq Op :=
  [:: Activate defaultConfig 1000 (Some EmptyString);
      AddEntry (captureAt 2000 "a") "A"%string None;
      AddEntry (captureAt 2000 "b") "B"%string None ].

(** P and B are added within the same millisecond, A is copied later, and
    P is pinned: B is unpinned and level with nothing pinned yet. *)
Definition pinWithTie : seq Op :=
  [:: Activate defaultConfig 1000 (Some EmptyString);
      AddEntry (captureAt 2000 "p") "P"%string None;
      AddEntry (captureAt 2000 "b") "B"%string None;
      Tick (Some "A"%string) (captureAt 3000 "a");
      TogglePin "2000-p"%string ].

(** [autoCleanupDays] days of the default settings, in milliseconds. *)
Definition sevenDays : Z := 7 * 24 * 60 * 60 * 1000.

(** What the examples show of an entry. *)
Definition shown (es : seq ClipboardEntry) : seq (string * Z * bool) :=
  [seq (content e, timestamp e, isPinned e) | e <- es].

(** Settings with a limit below zero. *)
Definition negativeLimitConfig : ClipboardManagerConfig :=
  mkConfig (-2) true false 7 [::] 500 50.

(** The entries of the sample sessions. *)
Definition entryP : ClipboardEntry :=
  mkEntry "2000-p" "P" 2000 true None 1 text.

Definition entryB : ClipboardEntry :=
  mkEntry "3000-b" "B" 3000 false None 1 text.

(** ** The specification's reading of pinning *)

(** Pinning as the specification words it: the newly pinned entry goes to
    the front of the pinned partition, which is the front of the list, and
    the other entries keep their order. *)
Definition pinToFront (i : string) (es : seq ClipboardEntry)
  : seq ClipboardEntry :=
  match Array_find (fun e => id e == i) es with
  | Some e => flipPinned e :: [seq x <- es | id x != i]
  | None => es
  end.

(** The flip of [togglePin] on every entry that carries the id. *)
Definition flipIf (i : string) (e : ClipboardEntry) : ClipboardEntry :=
  if id e == i then flipPinned e else e.

(** ** [extension.ts] and the tree view: relative times *)

Module Extension.

(** [getRelativeTime]; [dateNow] is its [Date.now()].  [Math.floor] of a
    quotient is [Z.div], which rounds down. *)
Definition getRelativeTime (dateNow timestamp : Z) : string :=
  let diff := (dateNow - timestamp)%Z in
  let seconds := (diff / 1000)%Z in
  let minutes := (seconds / 60)%Z in
  let hours := (minutes / 60)%Z in
  let days := (hours / 24)%Z in
  if (days >? 0)%Z then
    String.append (Number_toString days)
      (String.append " day"%string
         (String.append (if (days >? 1)%Z then "s"%string else EmptyString) " ago"%string))
  else if (hours >? 0)%Z then
    String.append (Number_toString hours)
      (String.append " hour"%string
         (String.append (if (hours >? 1)%Z then "s"%string else EmptyString) " ago"%string))
  else if (minutes >? 0)%Z then
    String.append (Number_toString minutes)
      (String.append " minute"%string
         (String.append (if (minutes >? 1)%Z then "s"%string else EmptyString)
                        " ago"%string))
  else "just now"%string.

End Extension.

Module ClipboardTreeItem.

(** [ClipboardTreeItem.getRelativeTime] of the tree view. *)
Definition getRelativeTime (dateNow timestamp : Z) : string :=
  let diff := (dateNow - timestamp)%Z in
  let seconds := (diff / 1000)%Z in
  let minutes := (seconds / 60)%Z in
  let hours := (minutes / 60)%Z in
  let days := (hours / 24)%Z in
  if (days >? 0)%Z then String.append (Number_toString days) "d ago"%string
  else if (hours >? 0)%Z then String.append (Number_toString hours) "h ago"%string
  else if (minutes >? 0)%Z then String.append (Number_toString minutes) "m ago"%string
  else "just now"%string.

End ClipboardTreeItem.

(** ** Further observations *)

(** Every character of the string satisfies [p]. *)
Fixpoint all_chars (p : ascii -> bool) (s : string) : bool :=
  match s with
  | EmptyString => true
  | String c s' => p c && all_chars p s'
  end.

(** The derived fields of an entry are the ones [addEntry] computes from
    its content. *)
Definition derivedFieldsOk
  (RegExp : string -> string -> option (string -> bool))
  (e : ClipboardEntry) : bool :=
  (lineCount e == split_LF_length (content e))
  && (contentType e == detectContentType RegExp (content e)).

(** No capture of the session reads a clock earlier than a timestamp that
    the list holds at that moment. *)
Fixpoint clockNeverBehind
  (RegExp : string -> string -> option (string -> bool))
  (ops : seq Op) (st : State) : bool :=
  match ops with
  | [::] => true
  | op :: ops' =>
      match op with
      | Tick _ c | AddEntry c _ _ =>
          all (fun e => (timestamp e <=? now c)%Z) (entries st)
      | _ => true
      end
      && clockNeverBehind RegExp ops' (perform RegExp op st)
  end.

Definition isUpdate (c : HostCall) : bool :=
  if c is globalState_update _ then true else false.

Definition isFire (c : HostCall) : bool :=
  if c is onDidChange_fire then true else false.

(** In a trace, every change notification comes right after a write to the
    store; [afterUpdate] tells whether the call before the trace was one. *)
Fixpoint firesFollowUpdates (afterUpdate : bool) (cs : seq HostCall) : bool :=
  match cs with
  | [::] => true
  | c :: cs' =>
      (isFire c ==> afterUpdate) && firesFollowUpdates (isUpdate c) cs'
  end.

(** The operations that are meant to take the entry [e] out of the list or
    to change its pin flag. *)
Definition aimsAt (e : ClipboardEntry) (op : Op) : bool :=
  match op with
  | DeleteEntry i | TogglePin i => i == id e
  | ClearHistory => true
  | _ => false
  end.


Definition notLF (c : ascii) : bool := ~~ Ascii.eqb c LF.

Definition notDash (c : ascii) : bool := ~~ Ascii.eqb c "-"%char.

(** The record under [STORAGE_KEY], when there is one, has an [entries]
    field. *)
Definition wellStored (m : Memento) : bool :=
  if Memento_get m STORAGE_KEY is Some data then isSome (stored_entries data)
  else true.

(** Two entries are level when [togglePin]'s comparator puts neither
    before the other: they have the same pin flag and the same timestamp. *)
Definition pinLevel : rel ClipboardEntry :=
  fun a b => pinOrder a b && pinOrder b a.

(** ** Basic facts about the built-ins *)

Section BuiltinFacts.
Variable T : Type.
Implicit Types (p : pred T) (s : seq T).

Lemma Array_find_none p s : ~~ has p s -> Array_find p s = None.
Proof. by elim: s => [|x s IH] //=; case: (p x). Qed.

Lemma Array_find_has p s : has p s -> exists2 x, Array_find p s = Some x & p x.
Proof.
elim: s => [|x s IH] //=; case Hpx: (p x) => /=; first by exists x.
exact: IH.
Qed.

Lemma Array_findIndex_none p s : ~~ has p s -> Array_findIndex p s = None.
Proof. by rewrite /Array_findIndex => /negbTE ->. Qed.

Lemma size_splice_from (n : Z) s :
  (0 <= n)%Z -> (Z.of_nat (size (Array_splice_from n s)) <= n)%Z.
Proof.
move=> Hn; rewrite /Array_splice_from.
have -> : (n <? 0)%Z = false by apply/Z.ltb_ge.
rewrite size_take; case: ltnP => [/ltP|/leP]; lia.
Qed.

End BuiltinFacts.

Lemma splice_from_subseq (T : eqType) (n : Z) (s : seq T) :
  subseq (Array_splice_from n s) s.
Proof.
rewrite /Array_splice_from.
set k := Z.to_nat _; rewrite -{2}(cat_take_drop k s).
exact: prefix_subseq.
Qed.

Lemma splice1_subseq (T : eqType) (k : nat) (s : seq T) :
  subseq (Array_splice1 k s) s.
Proof.
rewrite /Array_splice1 -{3}(cat_take_drop k s).
apply: cat_subseq; first exact: subseq_refl.
rewrite -add1n -drop_drop; exact: drop_subseq.
Qed.

(** ** Facts about the engine's methods *)

Section EngineFacts.
Variable RegExp : string -> string -> option (string -> bool).

Lemma reachable_run ops st :
  reachable RegExp st -> reachable RegExp (run RegExp ops st).
Proof.
elim: ops st => [|op ops IH] st Hst //=.
by apply: IH; apply: reachable_perform.
Qed.

Lemma has_id (i : string) (es : seq ClipboardEntry) :
  has (fun e => id e == i) es = (i \in [seq id e | e <- es]).
Proof.
elim: es => [|e es IH] //=.
by rewrite in_cons IH eq_sym.
Qed.

Lemma entries_addEntry c content sourceFile st :
  entries (addEntry RegExp c content sourceFile st) =
  [seq e <- entries st | isPinned e] ++
  capUnpinned (maxHistorySize (config st))
    (capturedEntry RegExp c content sourceFile ::
       [seq e <- entries st | ~~ isPinned e]).
Proof. by rewrite /addEntry /=; case: (enableNotifications _). Qed.

Lemma globalState_addEntry c content sourceFile st :
  globalState (addEntry RegExp c content sourceFile st) =
  StorageManager.saveHistory
    (entries (addEntry RegExp c content sourceFile st)) (globalState st).
Proof. by rewrite /addEntry /=; case: (enableNotifications _). Qed.

Lemma capUnpinned_subseq maxSize es : subseq (capUnpinned maxSize es) es.
Proof.
rewrite /capUnpinned; case: ifP => _; first exact: splice_from_subseq.
exact: subseq_refl.
Qed.

Lemma mem_addEntry c content sourceFile st e :
  e \in entries (addEntry RegExp c content sourceFile st) ->
  e = capturedEntry RegExp c content sourceFile \/ e \in entries st.
Proof.
rewrite entries_addEntry mem_cat => /orP [].
  by rewrite mem_filter => /andP [_ ->]; right.
move/(mem_subseq (capUnpinned_subseq _ _)).
rewrite in_cons => /orP [/eqP -> | ]; first by left.
by rewrite mem_filter => /andP [_ ->]; right.
Qed.

Lemma entries_cleanupOldEntries dateNow st :
  entries (cleanupOldEntries dateNow st) =
  [seq e <- entries st | survivesSweep dateNow (config st) e].
Proof. by rewrite /cleanupOldEntries /=; case: ifP. Qed.

Lemma stored_cleanupOldEntries dateNow st :
  StorageManager.loadHistory (globalState (cleanupOldEntries dateNow st)) =
  if size [seq e <- entries st | survivesSweep dateNow (config st) e]
       < size (entries st)
  then [seq e <- entries st | survivesSweep dateNow (config st) e]
  else StorageManager.loadHistory (globalState st).
Proof. by rewrite /cleanupOldEntries /=; case: ifP. Qed.

(** What the sweep does: it keeps the pinned entries and the entries
    strictly younger than the cutoff, in the order they had, and saves the
    list exactly when an entry went. *)
Lemma cleanupOldEntries_spec dateNow st :
  let st' := cleanupOldEntries dateNow st in
  let cutoffTime :=
    (dateNow - autoCleanupDays (config st) * 24 * 60 * 60 * 1000)%Z in
  [/\ forall e, (e \in entries st') =
                (e \in entries st)
                && (isPinned e || (timestamp e >? cutoffTime)%Z),
      subseq (entries st') (entries st),
      (size (entries st') < size (entries st)) =
      has (fun e => ~~ survivesSweep dateNow (config st) e) (entries st)
    & calls st' =
      if size (entries st') < size (entries st)
      then rcons (calls st)
             (globalState_update
                (Some (Stored_of (mkHistory (entries st') STORAGE_VERSION))))
      else calls st].
Proof.
rewrite /= entries_cleanupOldEntries; split.
- by move=> e; rewrite mem_filter andbC.
- exact: filter_subseq.
- rewrite size_filter has_predC all_count.
  by rewrite ltn_neqAle count_size andbT.
- by rewrite /cleanupOldEntries /=; case: ifP.
Qed.

(** What a tick does to the list: nothing, or one [addEntry] of the text
    it read. *)
Lemma entries_checkClipboard read c st :
  entries (checkClipboard RegExp read c st) = entries st
  \/ exists2 cur, read = Some cur /\ cur <> EmptyString
     & entries (checkClipboard RegExp read c st) =
       entries (addEntry RegExp c cur None
                  (set_lastClipboardContent cur st)).
Proof.
case: read => [cur|]; last by left.
rewrite /checkClipboard.
case: (cur =P EmptyString) => [->|Hcur] /=; first by left.
case: (cur != lastClipboardContent st); last by left.
case: (shouldExclude _ _ _); first by left.
case: ifP => _; first by left.
by right; exists cur.
Qed.

End EngineFacts.

(** ** The order of [togglePin] *)

Lemma pinOrderE (a b : ClipboardEntry) :
  pinOrder a b =
  if isPinned a == isPinned b then (timestamp b <=? timestamp a)%Z
  else isPinned a.
Proof.
rewrite /pinOrder /pinCompare.
case: (isPinned a); case: (isPinned b) => //=;
  by case: Z.leb_spec; case: Z.leb_spec => //; lia.
Qed.

Lemma pinOrder_total : total pinOrder.
Proof.
move=> a b; rewrite !pinOrderE.
case: (isPinned a); case: (isPinned b) => //=;
  by apply/orP; case: (Z.leb_spec (timestamp b) (timestamp a)) => H;
     [left|right] => //; apply/Z.leb_le; lia.
Qed.

Lemma pinOrder_trans : transitive pinOrder.
Proof.
move=> b a c; rewrite !pinOrderE.
case: (isPinned a); case: (isPinned b); case: (isPinned c) => //=;
  by move=> /Z.leb_le H1 /Z.leb_le H2; apply/Z.leb_le; lia.
Qed.

Lemma pinOrder_pinned (a b : ClipboardEntry) :
  pinOrder a b -> isPinned b ==> isPinned a.
Proof. by rewrite pinOrderE; case: (isPinned a); case: (isPinned b). Qed.

Lemma sorted_Array_sort (es : seq ClipboardEntry) :
  sorted pinOrder (Array_sort pinCompare es).
Proof. exact: (sort_sorted pinOrder_total). Qed.

Lemma sorted_pinnedFirst (es : seq ClipboardEntry) :
  sorted pinOrder es -> pinnedFirst es.
Proof.
rewrite (sorted_pairwise pinOrder_trans).
by apply: sub_pairwise => a b; apply: pinOrder_pinned.
Qed.

Lemma pinnedFirst_cat (ps us : seq ClipboardEntry) :
  all isPinned ps -> all (fun e => ~~ isPinned e) us -> pinnedFirst (ps ++ us).
Proof.
move=> /allP Hps /allP Hus; rewrite /pinnedFirst pairwise_cat.
apply/and3P; split.
- by apply/allrelP => a b /Hps -> _; rewrite implybT.
- apply/(pairwiseP (mkEntry EmptyString EmptyString 0 false None 0 text)).
  by move=> i j Hi Hj _; rewrite (Hps (nth _ ps i)) ?implybT // mem_nth.
- apply/(pairwiseP (mkEntry EmptyString EmptyString 0 false None 0 text)).
  move=> i j Hi Hj _.
  by rewrite (negbTE (Hus (nth _ us j) _)) // mem_nth.
Qed.

(** ** What the engine keeps true *)

Lemma loadHistory_saveHistory (X : seq ClipboardEntry) (m : Memento) :
  StorageManager.loadHistory (StorageManager.saveHistory X m) = X.
Proof. by []. Qed.

Section Invariant.
Variable RegExp : string -> string -> option (string -> bool).

Lemma order_addEntry c content sourceFile st :
  orderInvariant (addEntry RegExp c content sourceFile st).
Proof.
have H : pinnedFirst (entries (addEntry RegExp c content sourceFile st)).
  rewrite entries_addEntry; apply: pinnedFirst_cat.
    exact: filter_all.
  apply/allP => e /(mem_subseq (capUnpinned_subseq _ _)).
  rewrite in_cons => /orP [/eqP -> //|].
  by rewrite mem_filter => /andP [].
by rewrite /orderInvariant /storedEntries globalState_addEntry
           loadHistory_saveHistory H.
Qed.

Lemma order_checkClipboard read c st :
  orderInvariant st -> orderInvariant (checkClipboard RegExp read c st).
Proof.
move=> Hst; case: read => [cur|] //=.
case: ifP => // _; case: ifP => // _; case: ifP => // _.
exact: order_addEntry.
Qed.

Lemma order_deleteEntry i st :
  orderInvariant st -> orderInvariant (deleteEntry i st).
Proof.
rewrite /deleteEntry /Array_findIndex; case: ifP => // _ /andP [Hes _].
set k := find _ _.
have H : pinnedFirst (Array_splice1 k (entries st)).
  exact: subseq_pairwise (splice1_subseq _ _) Hes.
by rewrite /orderInvariant /storedEntries /= H.
Qed.

Lemma order_togglePin i st :
  orderInvariant st -> orderInvariant (togglePin i st).
Proof.
rewrite /togglePin; case: (Array_find _ _) => // _ _.
by rewrite /orderInvariant /storedEntries /=
           (sorted_pinnedFirst (sorted_Array_sort _)).
Qed.

Lemma order_cleanupOldEntries dateNow st :
  orderInvariant st -> orderInvariant (cleanupOldEntries dateNow st).
Proof.
move=> /andP [Hes Hst].
rewrite /orderInvariant /storedEntries entries_cleanupOldEntries
        stored_cleanupOldEntries.
have H := pairwise_filter (survivesSweep dateNow (config st)) Hes.
by rewrite /pinnedFirst H /=; case: ifP.
Qed.

Lemma order_initialize dateNow read st :
  pinnedFirst (storedEntries st) ->
  orderInvariant (initialize dateNow read st).2.
Proof.
move=> Hst; rewrite /initialize.
set st1 := set_entries _ st.
have /(order_cleanupOldEntries dateNow) : orderInvariant st1.
  by rewrite /orderInvariant /st1 /= -/(storedEntries st) Hst.
by case: read.
Qed.

Lemma order_perform op st :
  orderInvariant st -> orderInvariant (perform RegExp op st).
Proof.
case: op => [cfg dateNow read|read c|c content sf|i|i||i|cfg|] Hst /=.
- by apply: order_initialize; case/andP: Hst.
- by case: (timer st) => // _; apply: order_checkClipboard.
- exact: order_addEntry.
- exact: order_deleteEntry.
- exact: order_togglePin.
- by [].
- by rewrite /copyToClipboard; case: (Array_find _ _).
- by rewrite /updateConfig /stopMonitoring /=; case: (timer st).
- by rewrite /dispose /stopMonitoring; case: (timer st).
Qed.

Lemma order_reachable st : reachable RegExp st -> orderInvariant st.
Proof. by elim=> [cfg|op st' _ IH] //; apply: order_perform. Qed.

End Invariant.

(** ** The list stays in [togglePin]'s order while the clock advances *)

Section TimestampOrder.
Variable RegExp : string -> string -> option (string -> bool).

Lemma sorted_addEntry c content sourceFile st :
  sorted pinOrder (entries st) ->
  all (fun e => (timestamp e <=? now c)%Z) (entries st) ->
  sorted pinOrder (entries (addEntry RegExp c content sourceFile st)).
Proof.
rewrite entries_addEntry !(sorted_pairwise pinOrder_trans) => Hes Hnow.
rewrite pairwise_cat; apply/and3P; split.
- apply/allrelP => a b; rewrite mem_filter => /andP [Ha _].
  move/(mem_subseq (capUnpinned_subseq _ _)) => Hb.
  have Hpb : isPinned b = false.
    move: Hb; rewrite in_cons => /orP [/eqP -> //|].
    by rewrite mem_filter => /andP [/negbTE].
  by rewrite pinOrderE Ha Hpb.
- exact: pairwise_filter.
- apply: (subseq_pairwise (capUnpinned_subseq _ _)).
  rewrite pairwise_cons (pairwise_filter _ Hes) andbT.
  apply/allP => b; rewrite mem_filter => /andP [/negbTE Hpb Hb].
  by rewrite pinOrderE /= Hpb /= (allP Hnow _ Hb).
Qed.

Lemma sorted_deleteEntry i st :
  sorted pinOrder (entries st) -> sorted pinOrder (entries (deleteEntry i st)).
Proof.
rewrite /deleteEntry /Array_findIndex; case: ifP => // _ /=.
by apply: (subseq_sorted pinOrder_trans); exact: splice1_subseq.
Qed.

Lemma sorted_togglePin i st :
  sorted pinOrder (entries st) -> sorted pinOrder (entries (togglePin i st)).
Proof.
rewrite /togglePin; case: (Array_find _ _) => // _ _ /=.
exact: sorted_Array_sort.
Qed.

Lemma sorted_cleanupOldEntries dateNow st :
  sorted pinOrder (entries st) ->
  sorted pinOrder (entries (cleanupOldEntries dateNow st)).
Proof.
by rewrite entries_cleanupOldEntries; apply: (sorted_filter pinOrder_trans).
Qed.

End TimestampOrder.

(** ** The claims *)

Section Claims.
Variable RegExp : string -> string -> option (string -> bool).

(** C9. An operation on an id that no entry of the list carries does
    nothing: [deleteEntry], [togglePin] and [copyToClipboard] each return
    the state as it was, the entry list, the last-observed text, the
    persisted store and the trace of host calls (no save, no change
    notification, no message, no clipboard write) included; none of them
    can raise. *)
Theorem unknown_id_is_noop (st : State) (i : string) :
  i \notin [seq id e | e <- entries st] ->
  [/\ deleteEntry i st = st, togglePin i st = st
    & copyToClipboard i st = st].
Proof.
rewrite -has_id => Hno; split.
- by rewrite /deleteEntry Array_findIndex_none.
- by rewrite /togglePin Array_find_none.
- by rewrite /copyToClipboard Array_find_none.
Qed.

(** C10. A tick that reads the empty string changes nothing, whatever the
    last-observed text is: the state after it, baseline, list, store and
    trace, is the state before it.  And an entry that a tick adds never
    has empty content. *)
Theorem empty_read_changes_nothing (st : State) (c : Capture) :
  checkClipboard RegExp (Some EmptyString) c st = st
  /\ forall read e,
       e \in entries (checkClipboard RegExp read c st) ->
       e \notin entries st -> content e <> EmptyString.
Proof.
split=> // read e.
case: (entries_checkClipboard RegExp read c st) => [-> He /negP //|].
case=> cur [_ Hcur] -> /mem_addEntry [-> _ //|/= He /negP //].
Qed.

(** C3. When the list is not empty and the tick reads the content of its
    head entry, the list is left as it is (same entries, same length),
    nothing is saved and nothing is notified.  Only the head is compared:
    when the head's content differs, the text is captured whether or not an
    older entry has the same content. *)
Theorem head_duplicate_suppressed (st : State) (c : Capture)
  (e0 : ClipboardEntry) (rest : seq ClipboardEntry) :
  entries st = e0 :: rest ->
  [/\ entries (checkClipboard RegExp (Some (content e0)) c st) = entries st,
      globalState (checkClipboard RegExp (Some (content e0)) c st)
        = globalState st,
      calls (checkClipboard RegExp (Some (content e0)) c st) = calls st
    & forall cur,
        cur <> EmptyString -> cur <> lastClipboardContent st ->
        ~~ shouldExclude RegExp st cur -> content e0 <> cur ->
        checkClipboard RegExp (Some cur) c st =
        addEntry RegExp c cur None (set_lastClipboardContent cur st)].
Proof.
move=> Hes; rewrite /checkClipboard.
split.
- case: ifP => // _ /=; case: ifP => // _.
  by rewrite Hes /= eqxx.
- case: ifP => // _ /=; case: ifP => // _.
  by rewrite Hes /= eqxx.
- case: ifP => // _ /=; case: ifP => // _.
  by rewrite Hes /= eqxx.
- move=> cur /eqP -> /eqP -> /=.
  rewrite /shouldExclude /= => /negbTE -> /eqP /negbTE.
  by rewrite Hes /= => ->.
Qed.

(** C8. Saving a list and loading it back gives the same list, entry for
    entry and in the same order (for the empty list too); and [loadHistory]
    gives the empty list, without raising, when no record is stored or when
    the stored record has no [entries] field. *)
Theorem save_load_roundtrip (X : seq ClipboardEntry) (m : Memento) :
  [/\ StorageManager.loadHistory (StorageManager.saveHistory X m) = X,
      Memento_get m STORAGE_KEY = None -> StorageManager.loadHistory m = [::]
    & forall data, Memento_get m STORAGE_KEY = Some data ->
        stored_entries data = None -> StorageManager.loadHistory m = [::]].
Proof.
split; first exact: loadHistory_saveHistory.
- by rewrite /StorageManager.loadHistory => ->.
- by move=> data; rewrite /StorageManager.loadHistory => -> ->.
Qed.

(** C2. In every reachable state, each pinned entry of [getEntries()]
    stands before each unpinned one: an index that holds a pinned entry is
    smaller than any index that holds an unpinned entry. *)
Theorem pinned_precede_unpinned (st : State) (d : ClipboardEntry)
  (i j : nat) :
  reachable RegExp st ->
  i < size (getEntries st) -> j < size (getEntries st) ->
  isPinned (nth d (getEntries st) i) ->
  ~~ isPinned (nth d (getEntries st) j) ->
  i < j.
Proof.
move=> /order_reachable /andP [/(pairwiseP d) Hpw _] Hi Hj Hpi Hpj.
rewrite ltnNge leq_eqVlt; apply/negP => /orP [/eqP Hji|Hji].
  by move: Hpj; rewrite Hji Hpi.
by move: (Hpw j i Hj Hi Hji); rewrite Hpi (negbTE Hpj).
Qed.

(** C1, as the code has it.  The cap is applied by [addEntry] and nowhere
    else.  With a limit that is not negative, the unpinned entries after an
    [addEntry] are at most [maxHistorySize] and every pinned entry is kept,
    so pinned entries do not count; a tick keeps a list that is within the
    limit within it; [deleteEntry] and the sweep never raise the number of
    unpinned entries and [clearHistory] leaves none. *)
Theorem unpinned_capped_after_add (st : State) (c : Capture)
  (content : string) (sourceFile : option string) :
  (0 <= maxHistorySize (config st))%Z ->
  let st' := addEntry RegExp c content sourceFile st in
  ((Z.of_nat (unpinnedCount (entries st')) <= maxHistorySize (config st'))%Z
   /\ [seq e <- entries st' | isPinned e] = [seq e <- entries st | isPinned e])
  /\ (forall read,
        (Z.of_nat (unpinnedCount (entries st)) <= maxHistorySize (config st))%Z ->
        let st2 := checkClipboard RegExp read c st in
        (Z.of_nat (unpinnedCount (entries st2)) <= maxHistorySize (config st2))%Z)
  /\ [/\ forall i, unpinnedCount (entries (deleteEntry i st))
                   <= unpinnedCount (entries st),
         forall dateNow, unpinnedCount (entries (cleanupOldEntries dateNow st))
                         <= unpinnedCount (entries st)
       & unpinnedCount (entries (clearHistory st)) = 0].
Proof.
move=> Hmax /=.
have Hadd c' content' sf' st0 :
  (0 <= maxHistorySize (config st0))%Z ->
  (Z.of_nat (unpinnedCount (entries (addEntry RegExp c' content' sf' st0)))
   <= maxHistorySize (config st0))%Z.
  move=> H0; rewrite entries_addEntry /unpinnedCount count_cat.
  have -> : count (fun e => ~~ isPinned e) [seq e <- entries st0 | isPinned e]
            = 0.
    rewrite count_filter -(count_pred0 (entries st0)).
    by apply: eq_count => e /=; case: (isPinned e).
  rewrite add0n.
  set us := _ :: _.
  apply: (Z.le_trans _ (Z.of_nat (size (capUnpinned (maxHistorySize (config st0)) us)))).
    by apply/inj_le/leP; exact: count_size.
  rewrite /capUnpinned; case: Z.gtb_spec => H; last by [].
  exact: size_splice_from.
have Hcfg c' content' sf' st0 :
  config (addEntry RegExp c' content' sf' st0) = config st0.
  by rewrite /addEntry /=; case: (enableNotifications _).
split; [split|split].
- by rewrite Hcfg; apply: Hadd.
- rewrite entries_addEntry filter_cat filter_id.
  set us := capUnpinned _ _.
  have -> : [seq e <- us | isPinned e] = [::]; last by rewrite cats0.
  rewrite -(filter_pred0 us); apply: eq_in_filter => e.
  move/(mem_subseq (capUnpinned_subseq _ _)).
  rewrite in_cons => /orP [/eqP -> //|].
  by rewrite mem_filter => /andP [/negbTE ->].
- move=> read Hst; rewrite /checkClipboard.
  case: read => [cur|] //; case: ifP => // _ /=.
  case: ifP => // _; case: ifP => // _.
  by rewrite Hcfg; apply: Hadd.
- split.
  + move=> i; rewrite /deleteEntry /Array_findIndex; case: ifP => // _ /=.
    by apply: leq_count_subseq; exact: splice1_subseq.
  + move=> dateNow; rewrite entries_cleanupOldEntries.
    by apply: leq_count_subseq; exact: filter_subseq.
  + by [].
Qed.

End Claims.

(** ** Pinning and the order of the list *)

(** A sorted list in which [x] is the one element outside [q], and is
    level with no element inside [q], is determined by [x] and by its
    elements inside [q]: [x] stands exactly behind those that sort strictly
    before it. *)
Lemma sorted_around (T : eqType) (le : rel T) (q : pred T) (x : T)
  (l : seq T) :
  transitive le -> sorted le l ->
  [seq y <- l | ~~ q y] = [:: x] ->
  all (fun y => ~~ (le x y && le y x)) [seq y <- l | q y] ->
  l = [seq y <- [seq y <- l | q y] | ~~ le x y]
      ++ x :: [seq y <- [seq y <- l | q y] | le x y].
Proof.
move=> le_tr; elim: l => [|a l IH] //=.
rewrite (path_sortedE le_tr) => /andP [Hal Hl].
case Hq: (q a) => /=.
  move=> Hx /andP [Hax Hall].
  have Hxl : x \in l.
    have : x \in [seq y <- l | ~~ q y] by rewrite Hx mem_head.
    by rewrite mem_filter => /andP [].
  have Hle : le x a = false.
    by move: Hax; rewrite (allP Hal _ Hxl) andbT => /negbTE.
  by rewrite Hle /= {1}(IH Hl Hx Hall).
case=> Hax Hnil _; rewrite -Hax.
have Hql : [seq y <- l | q y] = l.
  apply/all_filterP; rewrite -[all _ _]negbK -has_predC has_filter.
  by rewrite [filter _ _]Hnil.
rewrite Hql.
have -> : [seq y <- l | le a y] = l by apply/all_filterP.
have -> // : [seq y <- l | ~~ le a y] = [::].
apply/eqP; rewrite -[_ == _]negbK -has_filter.
by apply/hasPn => y /(allP Hal) ->.
Qed.

(** A sorted list is determined by the order it gives to the elements of
    each level: two sorted lists that agree level by level are equal. *)
Lemma level_sorted_eq (T : eqType) (le : rel T) (s t : seq T) :
  total le -> transitive le ->
  sorted le s -> sorted le t ->
  (forall x, [seq y <- s | le x y && le y x]
             = [seq y <- t | le x y && le y x]) ->
  s = t.
Proof.
move=> le_tot le_tr.
have le_refl x : le x x by have := le_tot x x; rewrite orbb.
elim: s t => [|a s IH] [|b t] //=.
- by move=> _ _ /(_ b); rewrite /= le_refl.
- by move=> _ _ /(_ a); rewrite /= le_refl.
rewrite !(path_sortedE le_tr) => /andP [Has Hs] /andP [Hbt Ht] Hlevels.
have Hba : le b a.
  have : a \in [seq y <- b :: t | le a y && le y a].
    by rewrite /= -Hlevels le_refl mem_head.
  rewrite mem_filter in_cons => /andP [_ /orP [/eqP -> //|Hat]].
  exact: (allP Hbt).
have Hab : le a b.
  have : b \in [seq y <- a :: s | le b y && le y b].
    by rewrite /= Hlevels le_refl mem_head.
  rewrite mem_filter in_cons => /andP [_ /orP [/eqP -> //|Hbs]].
  exact: (allP Has).
have Eab : a = b.
  by have := Hlevels a; rewrite /= le_refl Hab Hba /=; case.
rewrite Eab; congr (_ :: _); apply: IH => // x.
by have := Hlevels x; rewrite /= Eab; case: ifP => _ //; case.
Qed.

Section Pinning.
Implicit Types (st : State) (i : string) (es : seq ClipboardEntry).

Lemma entries_togglePin i st :
  i \in [seq id e | e <- entries st] ->
  entries (togglePin i st) =
  Array_sort pinCompare
    (update_found (fun e => id e == i) flipPinned (entries st)).
Proof.
rewrite -has_id /togglePin => /Array_find_has [e -> _].
by [].
Qed.

Lemma filter_update_found i es :
  [seq e <- update_found (fun e => id e == i) flipPinned es | id e != i] =
  [seq e <- es | id e != i].
Proof.
elim: es => [|e es IH] //=.
case Hi: (id e == i) => /=; first by rewrite Hi.
by rewrite Hi /= IH.
Qed.

(** Sorting a list that was in order but for the toggled entry leaves the
    other entries in the order they had. *)
Lemma others_keep_order i es :
  sorted pinOrder es ->
  [seq e <- Array_sort pinCompare
              (update_found (fun e => id e == i) flipPinned es) | id e != i] =
  [seq e <- es | id e != i].
Proof.
move=> Hsorted.
rewrite /Array_sort (filter_sort pinOrder_total pinOrder_trans).
rewrite filter_update_found.
apply: (sorted_sort pinOrder_trans).
exact: (sorted_filter pinOrder_trans).
Qed.

Lemma update_found_uniq i es :
  uniq [seq id e | e <- es] ->
  update_found (fun e => id e == i) flipPinned es = [seq flipIf i e | e <- es].
Proof.
elim: es => [|e es IH] //= /andP [Hnotin Huniq].
rewrite /flipIf; case: (id e =P i) => [Hi|_]; last by rewrite -IH.
congr (_ :: _); rewrite -/(flipIf i); symmetry; apply: map_id_in => x Hx.
rewrite /flipIf; case: (id x =P i) => // Hxi.
by move: Hnotin; rewrite Hi -Hxi map_f.
Qed.

Lemma flipIfK i : involutive (flipIf i).
Proof.
move=> e; rewrite /flipIf; case Hi: (id e == i) => /=; rewrite Hi //.
by case: e Hi => ? ? ? p ? ? ? _; rewrite /flipPinned /= negbK.
Qed.

Lemma id_flipIf i es :
  [seq id e | e <- [seq flipIf i e | e <- es]] = [seq id e | e <- es].
Proof.
rewrite -map_comp; apply: eq_map => e /=.
by rewrite /flipIf; case: ifP.
Qed.

(** With unique ids, the entries that carry the id of [x] are [x]. *)
Lemma filter_id_uniq (x : ClipboardEntry) es :
  uniq [seq id e | e <- es] -> x \in es ->
  [seq e <- es | ~~ (id e != id x)] = [:: x].
Proof.
elim: es => [|a es IH] //= /andP [Hnotin Huniq].
rewrite in_cons negbK => /orP [/eqP Hxa|Hx].
  rewrite -Hxa eqxx; congr (_ :: _).
  apply/eqP; rewrite -[_ == _]negbK -has_filter; apply/hasPn => y Hy.
  rewrite negbK; apply: contraNneq Hnotin => Hyx.
  by rewrite -Hxa -Hyx map_f.
have -> : (id a == id x) = false.
  by apply: contraNF Hnotin => /eqP ->; rewrite map_f.
by rewrite -(IH Huniq Hx); apply: eq_filter => y; rewrite negbK.
Qed.

Lemma pinOrder_level (a b : ClipboardEntry) :
  pinOrder a b && pinOrder b a -> timestamp a = timestamp b.
Proof.
rewrite !pinOrderE eq_sym.
case: ifP => [_ /andP [/Z.leb_le H1 /Z.leb_le H2]|]; first by lia.
by case: (isPinned a); case: (isPinned b).
Qed.

(** With unique ids, toggling flips the entries that carry the id and
    permutes the list. *)
Lemma perm_togglePin i st :
  i \in [seq id e | e <- entries st] ->
  uniq [seq id e | e <- entries st] ->
  perm_eq (entries (togglePin i st)) [seq flipIf i e | e <- entries st].
Proof.
move=> Hi Hids.
by rewrite (entries_togglePin Hi) (update_found_uniq _ Hids)
           /Array_sort perm_sort.
Qed.

Lemma ids_togglePin i st :
  i \in [seq id e | e <- entries st] ->
  uniq [seq id e | e <- entries st] ->
  perm_eq [seq id e | e <- entries (togglePin i st)]
          [seq id e | e <- entries st].
Proof.
move=> Hi Hids.
by rewrite -(id_flipIf i (entries st)); apply/perm_map/perm_togglePin.
Qed.

(** Toggling twice gives a permutation of the list. *)
Lemma perm_togglePin_twice i st :
  i \in [seq id e | e <- entries st] ->
  uniq [seq id e | e <- entries st] ->
  perm_eq (entries (togglePin i (togglePin i st))) (entries st).
Proof.
move=> Hi Hids.
have Hids1 := ids_togglePin Hi Hids.
have Huniq1 : uniq [seq id e | e <- entries (togglePin i st)].
  by rewrite (perm_uniq Hids1).
have Hi1 : i \in [seq id e | e <- entries (togglePin i st)].
  by rewrite (perm_mem Hids1).
apply: (perm_trans (perm_togglePin Hi1 Huniq1)).
rewrite -[X in perm_eq _ X](mapK (@flipIfK i)).
exact/perm_map/perm_togglePin.
Qed.

Lemma level_pairwise (x : ClipboardEntry) es :
  all (pinLevel x) es -> pairwise pinOrder es.
Proof.
elim: es => [|a es IH] //= /andP [/andP [_ Hax] Hes].
rewrite IH // andbT; apply/allP => b /(allP Hes) /andP [Hxb _].
exact: pinOrder_trans Hax Hxb.
Qed.

(** The sort of [togglePin] is stable: the entries of each level come out
    in the order they went in. *)
Lemma Array_sort_stable (x : ClipboardEntry) es :
  [seq y <- Array_sort pinCompare es | pinLevel x y]
  = [seq y <- es | pinLevel x y].
Proof.
rewrite /Array_sort (filter_sort pinOrder_total pinOrder_trans).
by apply: pairwise_sort; apply: (@level_pairwise x); apply: filter_all.
Qed.

(** C6, as the code has it.  [togglePin] on an id of the list flips the
    flag of the first entry that carries it and sorts the list stably,
    pinned entries first and, in each partition, the later timestamp first:
    the new list holds the same entries with that one flag flipped, it is in
    that order, and entries that are level (same flag, same timestamp) stand
    in the order they had before the sort.  These facts leave no choice: any
    list in that order that keeps the order within each level is the new
    list.  The toggled entry therefore lands where its timestamp puts it in
    its new partition, behind the entries level with it that stood before it;
    and when the list was in that order already, all other entries keep
    their relative order. *)
Theorem togglePin_sorts_by_timestamp st i :
  i \in [seq id e | e <- entries st] ->
  let flipped := update_found (fun e => id e == i) flipPinned (entries st) in
  [/\ perm_eq (entries (togglePin i st)) flipped,
      sorted pinOrder (entries (togglePin i st)),
      forall x, [seq y <- entries (togglePin i st) | pinLevel x y]
                = [seq y <- flipped | pinLevel x y],
      forall t, sorted pinOrder t ->
        (forall x, [seq y <- t | pinLevel x y]
                   = [seq y <- flipped | pinLevel x y]) ->
        t = entries (togglePin i st)
    & sorted pinOrder (entries st) ->
      [seq e <- entries (togglePin i st) | id e != i] =
      [seq e <- entries st | id e != i]].
Proof.
move=> /entries_togglePin -> /=; split.
- by rewrite /Array_sort perm_sort.
- exact: sorted_Array_sort.
- by move=> x; apply: Array_sort_stable.
- move=> t Ht Hlevels.
  apply: (level_sorted_eq pinOrder_total pinOrder_trans Ht).
    exact: sorted_Array_sort.
  by move=> x; rewrite -/(pinLevel x) Hlevels -Array_sort_stable.
- exact: others_keep_order.
Qed.

(** C7, as the code has it.  When the list is in the order [togglePin]
    sorts by, no two entries share an id, and no other entry has the
    timestamp of the entry [x], calling [togglePin] twice on the id of [x]
    gives back the list that [getEntries()] showed before the first call,
    pin flags and order alike. *)
Theorem togglePin_twice_restores st (x : ClipboardEntry) :
  x \in entries st ->
  sorted pinOrder (entries st) ->
  uniq [seq id e | e <- entries st] ->
  all (fun y => (id y == id x) || (timestamp y != timestamp x)) (entries st) ->
  getEntries (togglePin (id x) (togglePin (id x) st)) = getEntries st.
Proof.
move=> Hx Hsorted Hids Hts; rewrite /getEntries.
set i := id x; pose q := fun e : ClipboardEntry => id e != i.
have Hi : i \in [seq id e | e <- entries st] by apply: map_f.
have Hperm := perm_togglePin_twice Hi Hids.
have Hi1 : i \in [seq id e | e <- entries (togglePin i st)].
  by rewrite (perm_mem (ids_togglePin Hi Hids)).
have Hs1 : sorted pinOrder (entries (togglePin i st)).
  by rewrite (entries_togglePin Hi); apply: sorted_Array_sort.
have Hs2 : sorted pinOrder (entries (togglePin i (togglePin i st))).
  by rewrite (entries_togglePin Hi1); apply: sorted_Array_sort.
have Hq : [seq e <- entries (togglePin i (togglePin i st)) | q e]
          = [seq e <- entries st | q e].
  rewrite (entries_togglePin Hi1) (others_keep_order _ Hs1).
  by rewrite (entries_togglePin Hi) (others_keep_order _ Hsorted).
have Hx1 : [seq e <- entries st | ~~ q e] = [:: x].
  exact: filter_id_uniq.
have Hx2 : [seq e <- entries (togglePin i (togglePin i st)) | ~~ q e] = [:: x].
  apply: perm_small_eq => //.
  by rewrite -Hx1; apply: perm_filter.
have Hlevel : all (fun y => ~~ (pinOrder x y && pinOrder y x))
                  [seq e <- entries st | q e].
  apply/allP => y; rewrite mem_filter /q => /andP [Hyi Hy].
  apply/negP => /pinOrder_level Hxy.
  by move: (allP Hts _ Hy); rewrite (negbTE Hyi) Hxy eqxx.
rewrite (sorted_around pinOrder_trans Hs2 Hx2) Hq //.
by rewrite -(sorted_around pinOrder_trans Hsorted Hx1 Hlevel).
Qed.

End Pinning.

(** ** The claims on sample sessions *)

Section Samples.
Local Open Scope string_scope.

Lemma reachable_sample ops cfg :
  reachable literalRegExp (run literalRegExp ops (install cfg)).
Proof. by apply: reachable_run; apply: reachable_install. Qed.

(** C1 fails as stated.  With a limit of one, P pinned and B in the
    history, unpinning P leaves two unpinned entries: [togglePin] does not
    apply the cap. *)
Lemma unpin_exceeds_limit :
  let st := afterPinThenCopy oneEntryConfig in
  let st' := perform literalRegExp (TogglePin "2000-p") st in
  reachable literalRegExp st
  /\ ~ (Z.of_nat (unpinnedCount (entries st')) <= maxHistorySize (config st'))%Z.
Proof. by split; [exact: reachable_sample | vm_compute]. Qed.

Lemma unpinned_capped_after_add_witness :
  let st := afterPinThenCopy oneEntryConfig in
  (0 <= maxHistorySize (config st))%Z
  /\ (Z.of_nat (unpinnedCount
                  (entries (addEntry literalRegExp (captureAt 4000 "c") "C"
                              None st)))
      <= 1)%Z.
Proof.
have H0 : (0 <= maxHistorySize (config (afterPinThenCopy oneEntryConfig)))%Z.
  by vm_compute.
split; first exact: H0.
by case: (@unpinned_capped_after_add literalRegExp
            (afterPinThenCopy oneEntryConfig) (captureAt 4000 "c") "C" None H0)
     => [[H _] _].
Defined.

Lemma pinned_precede_unpinned_witness :
  let st := afterPinThenCopy defaultConfig in
  let d := mkEntry "" "" 0 false None 0 text in
  [/\ reachable literalRegExp st,
      0 < size (getEntries st), 1 < size (getEntries st),
      isPinned (nth d (getEntries st) 0)
    & ~~ isPinned (nth d (getEntries st) 1)]
  /\ 0 < 1.
Proof.
have Hr : reachable literalRegExp (afterPinThenCopy defaultConfig).
  exact: reachable_sample.
split; first by split.
exact: (@pinned_precede_unpinned literalRegExp (afterPinThenCopy defaultConfig)
          (mkEntry "" "" 0 false None 0 text) 0 1 Hr
          (erefl true) (erefl true) (erefl true) (erefl true)).
Defined.

Lemma head_duplicate_suppressed_witness :
  let st := afterPinThenCopy defaultConfig in
  let c := captureAt 4000 "q" in
  shown (entries st) = [:: ("P", 2000%Z, true); ("B", 3000%Z, false)]
  /\ entries (checkClipboard literalRegExp (Some "P") c st) = entries st.
Proof.
split; first by [].
by case: (@head_duplicate_suppressed literalRegExp
            (afterPinThenCopy defaultConfig) (captureAt 4000 "q")
            (mkEntry "2000-p" "P" 2000 true None 1 text)
            [:: mkEntry "3000-b" "B" 3000 false None 1 text] (erefl _)).
Defined.

Lemma unknown_id_is_noop_witness :
  let st := afterPinThenCopy defaultConfig in
  "1234-x" \notin [seq id e | e <- entries st]
  /\ togglePin "1234-x" st = st.
Proof.
split; first by [].
by case: (@unknown_id_is_noop (afterPinThenCopy defaultConfig) "1234-x"
            (erefl true)).
Defined.

(** C4 fails on the code.  With P pinned and B the most recent capture,
    copying P (suppressed: P is the head of the list) and then B again adds
    a second B next to the first: the tick compares with the head of the
    list, which is the pinned P, not with the most recent entry. *)
Theorem recopied_text_stored_twice :
  let st := run literalRegExp copyAgain (install defaultConfig) in
  reachable literalRegExp st
  /\ shown (entries st)
     = [:: ("P", 2000%Z, true); ("B", 5000%Z, false); ("B", 3000%Z, false)]
  /\ shown (unpinnedSegment (entries st))
     = [:: ("B", 5000%Z, false); ("B", 3000%Z, false)].
Proof. by split; [exact: reachable_sample | vm_compute]. Qed.

(** C5 fails on the code at the cutoff itself.  An unpinned entry whose
    timestamp is exactly [autoCleanupDays] days before the sweep is not
    older than the cutoff, and the sweep removes it; a millisecond younger
    and it stays. *)
Theorem sweep_drops_entry_at_cutoff :
  let st := run literalRegExp copyOnce (install defaultConfig) in
  let sweepAt dateNow :=
    perform literalRegExp (Activate defaultConfig dateNow (Some "")) st in
  [/\ shown (entries st) = [:: ("A", 2000%Z, false)],
      (2000 + sevenDays
       - autoCleanupDays defaultConfig * 24 * 60 * 60 * 1000 = 2000)%Z,
      entries (sweepAt (2000 + sevenDays)%Z) = [::]
    & shown (entries (sweepAt (1999 + sevenDays)%Z))
      = [:: ("A", 2000%Z, false)]].
Proof. by split; vm_compute. Qed.

(** C6 fails as stated.  With C pinned and B, A unpinned, pinning A puts it
    behind C, where its older timestamp sorts it, not at the front of the
    pinned entries. *)
Lemma pinned_entry_not_at_front :
  let st := run literalRegExp copyThreePinLast (install defaultConfig) in
  [/\ reachable literalRegExp st,
      shown (entries st)
      = [:: ("C", 4000%Z, true); ("B", 3000%Z, false); ("A", 2000%Z, false)],
      shown (entries (togglePin "2000-a" st))
      = [:: ("C", 4000%Z, true); ("A", 2000%Z, true); ("B", 3000%Z, false)]
    & entries (togglePin "2000-a" st) <> pinToFront "2000-a" (entries st)].
Proof. by split; [exact: reachable_sample | | | ]; vm_compute. Qed.

Lemma togglePin_sorts_by_timestamp_witness :
  let st := run literalRegExp copyThreePinLast (install defaultConfig) in
  ("2000-a" \in [seq id e | e <- entries st]) /\ sorted pinOrder (entries st)
  /\ [seq e <- entries (togglePin "2000-a" st) | id e != "2000-a"] =
     [seq e <- entries st | id e != "2000-a"].
Proof.
split; first by [].
split; first by vm_compute.
case: (@togglePin_sorts_by_timestamp
         (run literalRegExp copyThreePinLast (install defaultConfig))
         "2000-a" (erefl true)) => _ _ _ _; apply.
by vm_compute.
Defined.

(** Pinning B when the pinned P has the same timestamp: B goes behind P,
    which stood before it, as a stable sort leaves them. *)
Example pinned_tie_keeps_order :
  let st := run literalRegExp pinWithTie (install defaultConfig) in
  [/\ reachable literalRegExp st,
      shown (entries st)
      = [:: ("P", 2000%Z, true); ("A", 3000%Z, false); ("B", 2000%Z, false)]
    & shown (entries (togglePin "2000-b" st))
      = [:: ("P", 2000%Z, true); ("B", 2000%Z, true); ("A", 3000%Z, false)]].
Proof. by split; [exact: reachable_sample | | ]; vm_compute. Qed.

(** C7 fails as stated.  After the clock was set back between two
    captures, the list is not in timestamp order, and toggling the pin of A
    twice leaves A before B where it was behind it. *)
Lemma togglePin_twice_reorders :
  let st := run literalRegExp clockSetBack (install defaultConfig) in
  [/\ reachable literalRegExp st,
      shown (getEntries st) = [:: ("B", 2000%Z, false); ("A", 3000%Z, false)],
      shown (getEntries (togglePin "3000-a" (togglePin "3000-a" st)))
      = [:: ("A", 3000%Z, false); ("B", 2000%Z, false)]
    & getEntries (togglePin "3000-a" (togglePin "3000-a" st))
      <> getEntries st].
Proof. by split; [exact: reachable_sample | | | ]; vm_compute. Qed.

(** The same happens to a list in sorted order when another entry shares
    the timestamp of the toggled one. *)
Example same_instant_entries_swap :
  let st := run literalRegExp addTwiceSameInstant (install defaultConfig) in
  [/\ sorted pinOrder (entries st),
      shown (getEntries st) = [:: ("B", 2000%Z, false); ("A", 2000%Z, false)]
    & shown (getEntries (togglePin "2000-a" (togglePin "2000-a" st)))
      = [:: ("A", 2000%Z, false); ("B", 2000%Z, false)]].
Proof. by split; vm_compute. Qed.

Lemma togglePin_twice_restores_witness :
  let st := run literalRegExp copyThreePinLast (install defaultConfig) in
  let x := mkEntry "2000-a" "A" 2000 false None 1 text in
  [/\ x \in entries st,
      sorted pinOrder (entries st),
      uniq [seq id e | e <- entries st]
    & all (fun y => (id y == id x) || (timestamp y != timestamp x))
          (entries st)]
  /\ getEntries (togglePin "2000-a" (togglePin "2000-a" st)) = getEntries st.
Proof.
have Hs : sorted pinOrder
  (entries (run literalRegExp copyThreePinLast (install defaultConfig))).
  by vm_compute.
split; first by split.
exact: (@togglePin_twice_restores
          (run literalRegExp copyThreePinLast (install defaultConfig))
          (mkEntry "2000-a" "A" 2000 false None 1 text)
          (erefl true) Hs (erefl true) (erefl true)).
Defined.

End Samples.

(** ** The store follows the list *)

Section Persistence.
Variable RegExp : string -> string -> option (string -> bool).

Lemma filter_all_size (T : Type) (p : pred T) (s : seq T) :
  (size (filter p s) < size s) = false -> filter p s = s.
Proof.
rewrite size_filter ltnNge => /negbFE Hle.
by apply/all_filterP; rewrite all_count eqn_leq count_size Hle.
Qed.

Lemma sync_cleanupOldEntries dateNow st :
  storedEntries st = entries st ->
  storedEntries (cleanupOldEntries dateNow st)
  = entries (cleanupOldEntries dateNow st).
Proof.
rewrite /storedEntries stored_cleanupOldEntries entries_cleanupOldEntries.
by case: ifP => // /filter_all_size -> ->.
Qed.

Lemma entries_initialize dateNow read st :
  entries (initialize dateNow read st).2 =
  [seq e <- storedEntries st | survivesSweep dateNow (config st) e].
Proof.
rewrite /initialize; set st1 := set_entries _ st.
have -> : [seq e <- storedEntries st | survivesSweep dateNow (config st) e]
          = entries (cleanupOldEntries dateNow st1).
  by rewrite entries_cleanupOldEntries.
by case: read.
Qed.

Lemma sync_initialize dateNow read st :
  storedEntries (initialize dateNow read st).2
  = entries (initialize dateNow read st).2.
Proof.
rewrite /initialize; set st1 := set_entries _ st.
have H : storedEntries (cleanupOldEntries dateNow st1)
         = entries (cleanupOldEntries dateNow st1).
  exact: sync_cleanupOldEntries.
by case: read.
Qed.

Lemma sync_perform op st :
  storedEntries st = entries st ->
  storedEntries (perform RegExp op st) = entries (perform RegExp op st).
Proof.
case: op => [cfg dateNow read|read c|c content sf|i|i||i|cfg|] Hst /=.
- exact: sync_initialize.
- case: (timer st) => // _; case: read => [cur|] //=.
  case: ifP => // _; case: ifP => // _; case: ifP => // _.
  by rewrite /storedEntries globalState_addEntry.
- by rewrite /storedEntries globalState_addEntry.
- by rewrite /deleteEntry; case: (Array_findIndex _ _).
- by rewrite /togglePin; case: (Array_find _ _).
- by [].
- by rewrite /copyToClipboard; case: (Array_find _ _).
- by rewrite /updateConfig /stopMonitoring /=; case: (timer st).
- by rewrite /dispose /stopMonitoring; case: (timer st).
Qed.

Lemma sync_reachable st :
  reachable RegExp st -> storedEntries st = entries st.
Proof. by elim=> [cfg|op st' _ IH] //; apply: sync_perform. Qed.

(** X1. In every reachable state the list that [loadHistory] would return
    is the list in memory: no operation changes the list without saving
    it. *)
Theorem store_follows_list st :
  reachable RegExp st ->
  StorageManager.loadHistory (globalState st) = getEntries st.
Proof. exact: sync_reachable. Qed.

(** X2. Activating the extension again brings back the list the last
    session ended with, less the unpinned entries that the sweep of
    [initialize] finds too old under the new settings. *)
Theorem restart_restores_history st cfg dateNow read :
  reachable RegExp st ->
  getEntries (perform RegExp (Activate cfg dateNow read) st) =
  [seq e <- getEntries st | survivesSweep dateNow cfg e].
Proof.
move=> /sync_reachable Hst.
by rewrite /getEntries /perform entries_initialize -Hst.
Qed.

(** X3. [clearHistory] empties the list and the store whatever they held,
    pinned entries included, and the next session starts with an empty
    list. *)
Theorem clearHistory_survives_restart st cfg dateNow read :
  [/\ getEntries (clearHistory st) = [::],
      StorageManager.loadHistory (globalState (clearHistory st)) = [::]
    & getEntries (perform RegExp (Activate cfg dateNow read)
                    (perform RegExp ClearHistory st)) = [::]].
Proof. by split=> //; rewrite /getEntries /perform entries_initialize. Qed.

End Persistence.

(** ** The polling tick and the baseline *)

Section Polling.
Variable RegExp : string -> string -> option (string -> bool).

Lemma last_addEntry c content sourceFile st :
  lastClipboardContent (addEntry RegExp c content sourceFile st)
  = lastClipboardContent st.
Proof. by rewrite /addEntry /=; case: (enableNotifications _). Qed.

Lemma checkClipboard_baseline t c st :
  lastClipboardContent st = t ->
  checkClipboard RegExp (Some t) c st = st.
Proof. by rewrite /checkClipboard => ->; rewrite eqxx andbF. Qed.

Lemma last_checkClipboard t c st :
  t <> EmptyString ->
  lastClipboardContent (checkClipboard RegExp (Some t) c st) = t.
Proof.
move=> /eqP Ht; rewrite /checkClipboard Ht /=.
case: (t =P lastClipboardContent st) => [<- //|_] /=.
case: ifP => // _; case: ifP => // _.
by rewrite last_addEntry.
Qed.

(** X4. A tick that reads the text the previous tick read does nothing:
    however long a text stays on the clipboard, it is looked at once. *)
Theorem tick_same_text_is_idle read c1 c2 st :
  checkClipboard RegExp read c2 (checkClipboard RegExp read c1 st)
  = checkClipboard RegExp read c1 st.
Proof.
case: read => [t|] //.
case: (t =P EmptyString) => [->|Ht] //.
exact/checkClipboard_baseline/last_checkClipboard.
Qed.

(** X5. The text that is on the clipboard when the extension starts is the
    baseline: the first tick that still reads it captures nothing. *)
Theorem startup_text_not_captured st cfg dateNow t c :
  perform RegExp (Tick (Some t) c)
    (perform RegExp (Activate cfg dateNow (Some t)) st)
  = perform RegExp (Activate cfg dateNow (Some t)) st.
Proof.
rewrite /perform; set st1 := (initialize _ _ _).2.
case: (timer st1) => // _; apply: checkClipboard_baseline.
by rewrite /st1 /initialize.
Qed.

(** X6. After a tick that read a non-empty text, that text is the
    baseline, whether it was captured, excluded by a pattern or suppressed
    as a duplicate of the head. *)
Theorem baseline_follows_read t c st :
  t <> EmptyString ->
  lastClipboardContent (checkClipboard RegExp (Some t) c st) = t.
Proof. exact: last_checkClipboard. Qed.

(** X7. What a tick adds.  An entry that is in the list after a tick and
    was not before carries the text that was read, the id and the timestamp
    of this capture, and is unpinned; and the text was not empty, differed
    from the baseline, matched no valid exclude pattern and differed from
    the content of the head of the list. *)
Theorem tick_adds_only_fresh_text t c st e :
  e \in entries (checkClipboard RegExp (Some t) c st) ->
  e \notin entries st ->
  [/\ e = capturedEntry RegExp c t None,
      t != EmptyString, t != lastClipboardContent st,
      ~~ shouldExclude RegExp st t
    & if entries st is e0 :: _ then content e0 != t else true].
Proof.
rewrite /checkClipboard.
case Ht: (t != EmptyString) => /=; last by move=> -> .
case Hl: (t != lastClipboardContent st) => /=; last by move=> ->.
rewrite {1 2}/shouldExclude /= -/(shouldExclude RegExp st t).
case Hx: (shouldExclude RegExp st t); first by move=> ->.
case Hh: (_ && _); first by move=> ->.
move=> /mem_addEntry [-> _|/= -> //]; split=> //.
by move: Hh; case: (entries st) => [|e0 es] //= ->.
Qed.

End Polling.

(** ** Looking entries up, copying them back, deleting them *)

Section Lookup.
Variable RegExp : string -> string -> option (string -> bool).
Implicit Types (st : State) (i j : string) (es : seq ClipboardEntry).

Lemma Array_find_cat (T : Type) (p : pred T) (s1 s2 : seq T) :
  Array_find p (s1 ++ s2) =
  if has p s1 then Array_find p s1 else Array_find p s2.
Proof. by elim: s1 => [|x s1 IH] //=; case: (p x). Qed.

Lemma splice1_find_split (T : Type) (p : pred T) (s : seq T) :
  has p s ->
  exists l1 e l2,
    [/\ s = l1 ++ e :: l2, p e, ~~ has p l1
      & Array_splice1 (find p s) s = l1 ++ l2].
Proof.
elim: s => [|x s IH] //=; case Hpx: (p x) => /=.
  by move=> _; exists [::], x, s; split=> //; rewrite /Array_splice1 /= drop0.
move=> /IH [l1 [e [l2 [Hs He Hl1 Hsp]]]]; exists (x :: l1), e, l2.
split=> //=; first by rewrite Hs.
  by rewrite Hpx.
by rewrite /Array_splice1 /= -/(Array_splice1 _ _) Hsp.
Qed.

Lemma find_id_uniq (e : ClipboardEntry) es :
  uniq [seq id x | x <- es] -> e \in es ->
  Array_find (fun x => id x == id e) es = Some e.
Proof.
elim: es => [|x es IH] //= /andP [Hnotin Huniq].
rewrite in_cons => /orP [/eqP <-|He]; first by rewrite eqxx.
case: (id x =P id e) => [Hxe|_]; last exact: IH.
by move: Hnotin; rewrite Hxe map_f.
Qed.

Lemma splice1_find_uniq i es :
  uniq [seq id x | x <- es] ->
  Array_splice1 (find (fun x => id x == i) es) es = [seq x <- es | id x != i].
Proof.
rewrite /Array_splice1.
elim: es => [|x es IH] //= /andP [Hnotin Huniq].
case: (id x =P i) => [Hxi|_] /=; last by rewrite -IH.
rewrite drop0; symmetry; apply/all_filterP/allP => y Hy.
by apply: contraNneq Hnotin => Hyi; rewrite Hxi -Hyi map_f.
Qed.

Lemma entries_deleteEntry_uniq i st :
  uniq [seq id x | x <- entries st] ->
  entries (deleteEntry i st) = [seq x <- entries st | id x != i].
Proof.
move=> Huniq; rewrite /deleteEntry /Array_findIndex.
case: ifP => [_|/negbT Hno] /=; first exact: splice1_find_uniq.
symmetry; apply/all_filterP.
by rewrite -[all _ _]negbK -has_predC; apply: contra Hno; apply: sub_has => x;
   rewrite /= negbK.
Qed.

Lemma Array_find_filter_id i j es :
  Array_find (fun x => id x == j) [seq x <- es | id x != i] =
  if j == i then None else Array_find (fun x => id x == j) es.
Proof.
elim: es => [|x es IH] /=; first by case: ifP.
case: (id x =P i) => [Hxi|/eqP Hxi] /=.
  by rewrite IH Hxi; case: (i =P j) => [<-|]; rewrite ?eqxx // eq_sym;
     move/eqP/negbTE => ->.
case: (id x =P j) => [Hxj|_] //.
by rewrite -Hxj (negbTE Hxi).
Qed.

(** X8. With unique ids, copying a listed entry back by its id writes that
    entry's content to the clipboard, shows one message, makes the content
    the baseline, and leaves the list and the store alone; the tick that
    then reads the content back captures nothing. *)
Theorem copy_back_is_not_recaptured st (e : ClipboardEntry) c :
  uniq [seq id x | x <- entries st] -> e \in entries st ->
  let st' := copyToClipboard (id e) st in
  [/\ calls st' = calls st ++ [:: clipboard_writeText (content e);
                                   showInformationMessage "Copied to clipboard"],
      lastClipboardContent st' = content e,
      entries st' = entries st,
      globalState st' = globalState st
    & checkClipboard RegExp (Some (content e)) c st' = st'].
Proof.
move=> Huniq He /=; rewrite /copyToClipboard (find_id_uniq Huniq He) /=.
split=> //; first by rewrite -!cats1 -catA.
exact: checkClipboard_baseline.
Qed.

(** X9. [deleteEntry] on an id of the list removes the first entry that
    carries it and nothing else: the entries before and behind it stay, in
    their order; the new list is saved and one change notification
    fires. *)
Theorem deleteEntry_removes_first_match st i :
  i \in [seq id x | x <- entries st] ->
  exists l1 e l2,
    [/\ entries st = l1 ++ e :: l2, id e = i,
        i \notin [seq id x | x <- l1],
        entries (deleteEntry i st) = l1 ++ l2
      & calls (deleteEntry i st) =
        calls st ++ [:: globalState_update
                          (Some (Stored_of (mkHistory (l1 ++ l2)
                                              STORAGE_VERSION)));
                        onDidChange_fire]].
Proof.
rewrite -has_id => Hhas.
have [l1 [e [l2 [Hes /eqP He Hl1 Hsplice]]]] := splice1_find_split Hhas.
exists l1, e, l2; split=> //.
- by rewrite -has_id.
- by rewrite /deleteEntry /Array_findIndex Hhas.
- by rewrite /deleteEntry /Array_findIndex Hhas /= Hsplice -!cats1 -catA.
Qed.

(** X10. With unique ids, an id that was deleted is no longer found, and
    looking up any other id gives what it gave before. *)
Theorem lookup_after_deleteEntry st i j :
  uniq [seq id x | x <- entries st] ->
  getEntry j (deleteEntry i st) = if j == i then None else getEntry j st.
Proof.
move=> Huniq; rewrite /getEntry entries_deleteEntry_uniq //.
exact: Array_find_filter_id.
Qed.

End Lookup.

(** ** What [addEntry] keeps and what it evicts *)

Section Eviction.
Variable RegExp : string -> string -> option (string -> bool).
Implicit Types (st : State) (es : seq ClipboardEntry).

Lemma unpinned_capUnpinned maxSize es :
  all (fun e => ~~ isPinned e) es ->
  [seq e <- capUnpinned maxSize es | ~~ isPinned e] = capUnpinned maxSize es.
Proof.
move=> /allP Hes; apply/all_filterP/allP => e.
by move/(mem_subseq (capUnpinned_subseq _ _)) => /Hes.
Qed.

Lemma unpinnedSegment_addEntry c content sourceFile st :
  unpinnedSegment (entries (addEntry RegExp c content sourceFile st)) =
  capUnpinned (maxHistorySize (config st))
    (capturedEntry RegExp c content sourceFile :: unpinnedSegment (entries st)).
Proof.
rewrite /unpinnedSegment entries_addEntry filter_cat.
have -> : [seq e <- [seq e <- entries st | isPinned e] | ~~ isPinned e] = [::].
  rewrite -filter_predI -(filter_pred0 (entries st)).
  by apply: eq_filter => e /=; case: (isPinned e).
rewrite cat0s unpinned_capUnpinned //=.
exact: filter_all.
Qed.

(** X11. With a limit that is not negative, the unpinned entries after
    [addEntry] are the new entry followed by the unpinned entries there
    were, cut to the limit: what is evicted is the tail, the entries that
    had been longest in the unpinned segment. *)
Theorem addEntry_evicts_the_tail c content sourceFile st :
  (0 <= maxHistorySize (config st))%Z ->
  unpinnedSegment (entries (addEntry RegExp c content sourceFile st)) =
  take (Z.to_nat (maxHistorySize (config st)))
       (capturedEntry RegExp c content sourceFile
          :: unpinnedSegment (entries st)).
Proof.
move=> Hmax; rewrite unpinnedSegment_addEntry /capUnpinned.
set us := _ :: _.
case: Z.gtb_spec => Hlen.
  rewrite /Array_splice_from.
  have -> : (maxHistorySize (config st) <? 0)%Z = false by apply/Z.ltb_ge.
  by rewrite Z.min_l //; lia.
rewrite take_oversize //; apply/leP.
by apply/Nat2Z.inj_le; rewrite Z2Nat.id.
Qed.

(** X12. With a negative limit the cap is always applied and counts from
    the end of the array: [addEntry] drops as many unpinned entries from
    the tail as the limit is below zero, so the unpinned segment never
    grows. *)
Theorem addEntry_negative_limit c content sourceFile st :
  (maxHistorySize (config st) < 0)%Z ->
  let us := capturedEntry RegExp c content sourceFile
              :: unpinnedSegment (entries st) in
  unpinnedSegment (entries (addEntry RegExp c content sourceFile st)) =
  take (size us - Z.to_nat (- maxHistorySize (config st))) us
  /\ unpinnedCount (entries (addEntry RegExp c content sourceFile st))
     <= unpinnedCount (entries st).
Proof.
move=> Hmax /=; rewrite unpinnedSegment_addEntry /capUnpinned.
set us := _ :: _.
have Hgt : (Z.of_nat (size us) >? maxHistorySize (config st))%Z = true.
  by apply/Z.gtb_lt; lia.
have Hlt : (maxHistorySize (config st) <? 0)%Z = true by apply/Z.ltb_lt.
have Hk : Z.to_nat (Z.max (Z.of_nat (size us) + maxHistorySize (config st)) 0)
          = size us - Z.to_nat (- maxHistorySize (config st)).
  by rewrite -minusE; lia.
have Heq : unpinnedSegment (entries (addEntry RegExp c content sourceFile st))
           = take (size us - Z.to_nat (- maxHistorySize (config st))) us.
  by rewrite unpinnedSegment_addEntry /capUnpinned Hgt /Array_splice_from Hlt Hk.
split; first by rewrite Hgt /Array_splice_from Hlt Hk.
rewrite /unpinnedCount -!size_filter -/(unpinnedSegment _) Heq.
rewrite -/(unpinnedSegment (entries st)) size_take.
have Hpos : (0 < Z.to_nat (- maxHistorySize (config st)))%coq_nat by lia.
move: Hpos; set k := Z.to_nat _ => Hpos.
have Hus : size us = (size (unpinnedSegment (entries st))).+1 by [].
case: ltnP => [_|/leP]; rewrite Hus; last by rewrite -minusE; lia.
by apply/leP; rewrite -minusE; lia.
Qed.

(** X13. A capture can be looked up: when the limit is at least one and no
    entry of the list has the new id, [getEntry] on the id that
    [generateId] gave finds the entry that [addEntry] built. *)
Theorem lookup_after_addEntry c content sourceFile st :
  (1 <= maxHistorySize (config st))%Z ->
  generateId c \notin [seq id e | e <- entries st] ->
  getEntry (generateId c) (addEntry RegExp c content sourceFile st)
  = Some (capturedEntry RegExp c content sourceFile).
Proof.
move=> Hmax Hfresh; rewrite /getEntry entries_addEntry Array_find_cat.
have -> : has (fun e => id e == generateId c)
              [seq e <- entries st | isPinned e] = false.
  apply/negbTE; apply: contra Hfresh; rewrite -has_id.
  by rewrite has_filter -filter_predI -has_filter; apply: sub_has => e /andP [].
rewrite /capUnpinned; set us := _ :: _.
have Hhead : forall k, 0 < k ->
  Array_find (fun e => id e == generateId c) (take k us)
  = Some (capturedEntry RegExp c content sourceFile).
  by case=> // k _; rewrite /us /= eqxx.
case: ifP => _; last by rewrite -(take_size us); apply: Hhead.
rewrite /Array_splice_from.
have -> : (maxHistorySize (config st) <? 0)%Z = false by apply/Z.ltb_ge; lia.
by apply: Hhead; apply/ltP; rewrite /us /=; lia.
Qed.

End Eviction.

(** ** What [togglePin] and the sweep change *)

Section Toggling.
Variable RegExp : string -> string -> option (string -> bool).
Implicit Types (st : State) (i : string) (es : seq ClipboardEntry).

Lemma Array_find_some (T : eqType) (p : pred T) (s : seq T) (x : T) :
  Array_find p s = Some x -> x \in s /\ p x.
Proof.
elim: s => [|y s IH] //=; case Hpy: (p y).
  by case=> <-; rewrite mem_head.
by move=> /IH [Hx Hpx]; rewrite in_cons Hx orbT.
Qed.

Lemma ids_update_found i es :
  [seq id e | e <- update_found (fun e => id e == i) flipPinned es]
  = [seq id e | e <- es].
Proof.
elim: es => [|e es IH] //=.
by case: ifP => _ /=; rewrite ?IH.
Qed.

Lemma count_update_found i es (e : ClipboardEntry) :
  Array_find (fun x => id x == i) es = Some e ->
  count isPinned (update_found (fun x => id x == i) flipPinned es)
    + isPinned e
  = count isPinned es + ~~ isPinned e.
Proof.
elim: es => [|x es IH] //=; case: ifP => _ /=.
  by case=> <-; case: (isPinned x); rewrite /= ?addn0 ?add0n ?addn1 ?add1n.
by move=> /IH {}IH; rewrite -!addnA IH.
Qed.

(** X14. [togglePin] on an id of the list changes the pin flag of one
    entry and nothing else about the entries: the list keeps its length and
    its ids, and the number of pinned entries goes up by one when the entry
    found was unpinned and down by one when it was pinned. *)
Theorem togglePin_flips_one_flag st i (e : ClipboardEntry) :
  getEntry i st = Some e ->
  [/\ size (entries (togglePin i st)) = size (entries st),
      perm_eq [seq id x | x <- entries (togglePin i st)]
              [seq id x | x <- entries st]
    & count isPinned (entries (togglePin i st)) + isPinned e
      = count isPinned (entries st) + ~~ isPinned e].
Proof.
rewrite /getEntry => He; rewrite /togglePin He /= /Array_sort; split.
- rewrite size_sort; elim: (entries st) => [|x es IH] //=.
  by case: ifP => _ /=; rewrite ?IH.
- by rewrite -(ids_update_found i (entries st)); apply/perm_map; rewrite perm_sort.
- by rewrite count_sort; apply: count_update_found.
Qed.

(** X15. With unique ids, looking an entry up after toggling its pin gives
    the same entry with the flag flipped. *)
Theorem lookup_after_togglePin st i (e : ClipboardEntry) :
  uniq [seq id x | x <- entries st] ->
  getEntry i st = Some e ->
  getEntry i (togglePin i st) = Some (flipPinned e).
Proof.
move=> Huniq; rewrite /getEntry => He.
have [Hin /eqP Hid] := Array_find_some He.
have Hi : i \in [seq id x | x <- entries st] by rewrite -Hid map_f.
have Hperm := perm_togglePin Hi Huniq.
have Huniq' : uniq [seq id x | x <- entries (togglePin i st)].
  by rewrite (perm_uniq (ids_togglePin Hi Huniq)).
have Hin' : flipPinned e \in entries (togglePin i st).
  rewrite (perm_mem Hperm); apply/mapP; exists e => //.
  by rewrite /flipIf Hid eqxx.
by have := find_id_uniq Huniq' Hin'; rewrite /= Hid.
Qed.

Lemma cleanupOldEntries_fixed dateNow st :
  all (survivesSweep dateNow (config st)) (entries st) ->
  cleanupOldEntries dateNow st = st.
Proof.
move=> /all_filterP Hall; rewrite /cleanupOldEntries /=.
rewrite -/(survivesSweep dateNow (config st)).
have -> : [seq e <- entries st | isPinned e
            || (timestamp e >?
                dateNow - autoCleanupDays (config st) * 24 * 60 * 60 * 1000)%Z]
          = entries st by exact: Hall.
by rewrite ltnn; case: st {Hall}.
Qed.

Lemma config_cleanupOldEntries dateNow st :
  config (cleanupOldEntries dateNow st) = config st.
Proof. by rewrite /cleanupOldEntries /=; case: ifP. Qed.

(** X16. Sweeps compose.  A sweep after an earlier sweep leaves the list
    that the later sweep alone would leave, and a second sweep at the same
    instant changes nothing at all: it removes nothing and saves
    nothing. *)
Theorem sweeps_compose st (d1 d2 : Z) :
  (d1 <= d2)%Z ->
  entries (cleanupOldEntries d2 (cleanupOldEntries d1 st))
  = entries (cleanupOldEntries d2 st)
  /\ cleanupOldEntries d2 (cleanupOldEntries d2 st) = cleanupOldEntries d2 st.
Proof.
move=> Hd; split.
  rewrite !entries_cleanupOldEntries config_cleanupOldEntries -filter_predI.
  apply: eq_filter => e /=; rewrite /survivesSweep.
  case: (isPinned e) => //=.
  case: Z.gtb_spec => H2; rewrite ?andbF //.
  by case: Z.gtb_spec => // H1; lia.
apply: cleanupOldEntries_fixed.
rewrite config_cleanupOldEntries entries_cleanupOldEntries.
exact: filter_all.
Qed.

End Toggling.

(** ** Invariants of a session *)

Section SessionInvariants.
Variable RegExp : string -> string -> option (string -> bool).
Implicit Types (st : State) (es : seq ClipboardEntry).

Lemma entries_Activate cfg dateNow read st :
  storedEntries st = entries st ->
  entries (perform RegExp (Activate cfg dateNow read) st)
  = [seq e <- entries st | survivesSweep dateNow cfg e].
Proof. by move=> Hsync; rewrite /perform entries_initialize -Hsync. Qed.

(** A property of entries that the captured entry has and that flipping
    the pin flag keeps is kept by every operation. *)
Section Kept.
Variable P : pred ClipboardEntry.
Hypothesis P_captured : forall c content sf, P (capturedEntry RegExp c content sf).
Hypothesis P_flip : forall e, P e -> P (flipPinned e).

Lemma all_update_found (p : pred ClipboardEntry) es :
  all P es -> all P (update_found p flipPinned es).
Proof.
elim: es => [|e es IH] //= /andP [He Hes].
by case: ifP => _ /=; rewrite ?P_flip ?He ?IH.
Qed.

Lemma all_addEntry c content sf st :
  all P (entries st) -> all P (entries (addEntry RegExp c content sf st)).
Proof.
move=> /allP Hst; apply/allP => e /mem_addEntry [->|/Hst] //.
Qed.

Lemma all_perform op st :
  storedEntries st = entries st ->
  all P (entries st) -> all P (entries (perform RegExp op st)).
Proof.
move=> Hsync Hst.
case: op => [cfg dateNow read|read c|c content sf|i|i||i|cfg|].
- rewrite entries_Activate // all_filter.
  by apply: sub_all Hst => e /= ->; rewrite implybT.
- rewrite /perform; case: (timer st) => // _.
  case: (entries_checkClipboard RegExp read c st) => [-> //|[cur _ ->]].
  exact: all_addEntry.
- exact: all_addEntry.
- rewrite /= /deleteEntry /Array_findIndex; case: ifP => // _ /=.
  by apply/allP => e /(mem_subseq (splice1_subseq _ _)) /(allP Hst).
- rewrite /= /togglePin; case: (Array_find _ _) => // _ /=.
  by rewrite /Array_sort all_sort; apply: all_update_found.
- by [].
- by rewrite /= /copyToClipboard; case: (Array_find _ _).
- by rewrite /= /updateConfig /stopMonitoring /=; case: (timer st).
- by rewrite /= /dispose /stopMonitoring; case: (timer st).
Qed.

Lemma all_reachable st : reachable RegExp st -> all P (entries st).
Proof.
elim=> [cfg|op st' Hst' IH] //.
by apply: all_perform => //; apply: sync_reachable Hst'.
Qed.

End Kept.

Lemma split_LF_length_gt0 s : 0 < split_LF_length s.
Proof. by elim: s => [|c s IH] //=; case: ifP. Qed.

(** X17. In every reachable state each entry's derived fields are the ones
    its content gives: [lineCount] is the number of lines of the content,
    which is at least one, and [contentType] is what [detectContentType]
    says of the content. *)
Theorem derived_fields_match_content st (e : ClipboardEntry) :
  reachable RegExp st -> e \in getEntries st ->
  [/\ lineCount e = split_LF_length (content e), 0 < lineCount e
    & contentType e = detectContentType RegExp (content e)].
Proof.
move=> Hst He.
have /allP /(_ e He) /andP [/eqP H1 /eqP H2] :
  all (derivedFieldsOk RegExp) (entries st).
  apply: all_reachable Hst => [c content sf|x] //.
  by rewrite /derivedFieldsOk /= !eqxx.
by split=> //; rewrite H1 split_LF_length_gt0.
Qed.

Lemma mem_update_found (p : pred ClipboardEntry) (e : ClipboardEntry) es :
  e \in es -> ~~ p e -> e \in update_found p flipPinned es.
Proof.
elim: es => [|x es IH] //=; rewrite in_cons => /orP [/eqP <-|He] Hpe.
  by rewrite (negbTE Hpe) mem_head.
by case: ifP => _; rewrite in_cons ?He ?IH ?orbT.
Qed.

(** X18. A pinned entry stays in the list through every operation that is
    not aimed at it: through captures at the limit, through the sweep of a
    new session whatever its age, and through deleting or toggling other
    ids; only [deleteEntry] and [togglePin] on its own id and
    [clearHistory] take it out or unpin it. *)
Theorem pinned_entry_survives st op (e : ClipboardEntry) :
  reachable RegExp st -> e \in getEntries st -> isPinned e ->
  ~~ aimsAt e op ->
  e \in getEntries (perform RegExp op st).
Proof.
rewrite /getEntries => Hst He Hpin.
have Hadd c content sf st0 :
  e \in entries st0 -> e \in entries (addEntry RegExp c content sf st0).
  by move=> H; rewrite entries_addEntry mem_cat mem_filter Hpin H.
case: op => [cfg dateNow read|read c|c content sf|i|i||i|cfg|] //= Haim.
- rewrite -/(perform RegExp (Activate cfg dateNow read) st).
  rewrite (entries_Activate _ _ _ (sync_reachable Hst)).
  by rewrite mem_filter /survivesSweep Hpin He.
- case: (timer st) => // _.
  case: (entries_checkClipboard RegExp read c st) => [-> //|[cur _ ->]].
  exact: Hadd.
- exact: Hadd.
- rewrite /deleteEntry /Array_findIndex; case: ifP => // Hhas /=.
  have [l1 [x [l2 [Hes /eqP Hx _ ->]]]] := splice1_find_split Hhas.
  move: He; rewrite Hes !mem_cat in_cons => /or3P [->|/eqP Hex|->] //.
    by move: Haim; rewrite Hex Hx eqxx.
  by rewrite orbT.
- rewrite /togglePin; case: (Array_find _ _) => // _ /=.
  by rewrite /Array_sort mem_sort; apply: mem_update_found; rewrite // eq_sym.
- by rewrite /copyToClipboard; case: (Array_find _ _).
- by rewrite /updateConfig /stopMonitoring /=; case: (timer st).
- by rewrite /dispose /stopMonitoring; case: (timer st).
Qed.

Lemma sorted_perform op st :
  storedEntries st = entries st ->
  (if op is Tick _ c then all (fun e => (timestamp e <=? now c)%Z) (entries st)
   else if op is AddEntry c _ _
        then all (fun e => (timestamp e <=? now c)%Z) (entries st)
   else true) ->
  sorted pinOrder (entries st) ->
  sorted pinOrder (entries (perform RegExp op st)).
Proof.
move=> Hsync.
case: op => [cfg dateNow read|read c|c content sf|i|i||i|cfg|] Hclock Hst.
- by rewrite entries_Activate //; apply: (sorted_filter pinOrder_trans).
- rewrite /perform; case: (timer st) => // _.
  case: (entries_checkClipboard RegExp read c st) => [-> //|[cur _ ->]].
  exact: sorted_addEntry.
- exact: sorted_addEntry.
- exact: sorted_deleteEntry.
- exact: sorted_togglePin.
- by [].
- by rewrite /= /copyToClipboard; case: (Array_find _ _).
- by rewrite /= /updateConfig /stopMonitoring /=; case: (timer st).
- by rewrite /= /dispose /stopMonitoring; case: (timer st).
Qed.

Lemma sorted_run ops st :
  storedEntries st = entries st -> sorted pinOrder (entries st) ->
  clockNeverBehind RegExp ops st ->
  sorted pinOrder (entries (run RegExp ops st)).
Proof.
elim: ops st => [|op ops IH] st Hsync Hst //= /andP [Hop Hops].
apply: IH Hops; first exact: sync_perform.
by apply: sorted_perform => //; case: op Hop.
Qed.

(** X19. As long as no capture reads a clock earlier than a timestamp in
    the list, the list of a session is always in the order [togglePin]
    sorts by: pinned entries first and, in each partition, the later
    timestamp first. *)
Theorem list_stays_newest_first ops cfg :
  clockNeverBehind RegExp ops (constructor Memento_empty cfg) ->
  sorted pinOrder
    (getEntries (run RegExp ops (constructor Memento_empty cfg))).
Proof. exact: sorted_run. Qed.



End SessionInvariants.

(** ** The trace of host calls *)

Section Trace.
Variable RegExp : string -> string -> option (string -> bool).
Implicit Types (st : State) (cs ds : seq HostCall).

Lemma firesFollowUpdates_split b cs1 cs2 :
  firesFollowUpdates b (cs1 ++ onDidChange_fire :: cs2) ->
  (cs1 = [::] /\ b) \/ exists v cs0, cs1 = rcons cs0 (globalState_update v).
Proof.
elim: cs1 b => [|c cs1 IH] b /=; first by move=> /andP [-> _]; left.
move=> /andP [_ /IH [[Hnil Hc]|[v [cs0 Hcs0]]]]; right.
  by case: c Hc => [v|||m|w] //= _; exists v, [::]; rewrite Hnil.
by exists v, (c :: cs0); rewrite Hcs0.
Qed.

Lemma own_calls_perform op st :
  exists ds,
    [/\ calls (perform RegExp op st)
        = (if op is Activate _ _ _ then [::] else calls st) ++ ds,
        count isFire ds <= 1
      & firesFollowUpdates false ds].
Proof.
have Hadd c content sf st0 :
  exists ds,
    [/\ calls (addEntry RegExp c content sf st0) = calls st0 ++ ds,
        count isFire ds <= 1
      & firesFollowUpdates false ds].
  rewrite /addEntry /=; case: (enableNotifications _) => /=.
    by eexists; split; first by rewrite -!cats1 -!catA.
  by eexists; split; first by rewrite -!cats1 -!catA.
have Hnone st0 :
  exists ds, [/\ calls st0 = calls st0 ++ ds, count isFire ds <= 1
               & firesFollowUpdates false ds].
  by exists [::]; rewrite cats0.
case: op => [cfg dateNow read|read c|c content sf|i|i||i|cfg|] /=.
- rewrite /initialize /cleanupOldEntries /=; case: ifP => _; case: read => [t|];
    by eexists; split; first by rewrite /= ?cat0s.
- case: (timer st) => [_|]; last exact: Hnone.
  case: read => [cur|] /=; last exact: Hnone.
  case: ifP => _; last exact: Hnone.
  case: ifP => _; first exact: Hnone.
  case: ifP => _; first exact: Hnone.
  exact: Hadd.
- exact: Hadd.
- rewrite /deleteEntry; case: (Array_findIndex _ _) => [index|] /=;
    last exact: Hnone.
  by eexists; split; first by rewrite -!cats1 -!catA.
- rewrite /togglePin; case: (Array_find _ _) => [entry|] /=;
    last exact: Hnone.
  by eexists; split; first by rewrite -!cats1 -!catA.
- by eexists; split; first by rewrite -!cats1 -!catA.
- rewrite /copyToClipboard; case: (Array_find _ _) => [entry|] /=;
    last exact: Hnone.
  by eexists; split; first by rewrite -!cats1 -!catA.
- rewrite /updateConfig /stopMonitoring /=; case: (timer st) => [t|] /=;
    exact: (Hnone st).
- rewrite /dispose /stopMonitoring; case: (timer st) => [t|] /=;
    by eexists; split; first by rewrite -cats1.
Qed.

(** X21. Among the host calls that one operation makes, a change
    notification comes at most once and only right after that operation's
    own write to the store: a method notifies its listeners only once it
    has handed its change to the store.  (This is about the calls of one
    method among themselves; where methods overlap in time, the calls of
    another method can fall in between.) *)
Theorem change_is_notified_after_save op st :
  exists ds,
    [/\ calls (perform RegExp op st)
        = (if op is Activate _ _ _ then [::] else calls st) ++ ds,
        count isFire ds <= 1
      & forall cs1 cs2,
          ds = cs1 ++ onDidChange_fire :: cs2 ->
          exists v cs0, cs1 = rcons cs0 (globalState_update v)].
Proof.
have [ds [Hcalls Hcount Hds]] := own_calls_perform op st.
exists ds; split=> // cs1 cs2 Hsplit.
by move: Hds; rewrite Hsplit => /firesFollowUpdates_split [[]|].
Qed.

End Trace.

(** ** Previews and relative times *)

Section Formatting.
Implicit Types (s t : string) (p : ascii -> bool).

Lemma all_chars_append p s t :
  all_chars p (String.append s t) = all_chars p s && all_chars p t.
Proof. by elim: s => [|c s IH] //=; rewrite IH andbA. Qed.

Lemma all_chars_trimStart p s : all_chars p s -> all_chars p (trimStart s).
Proof.
elim: s => [|c s IH] //= /andP [Hc Hs].
by case: ifP => _ /=; rewrite ?IH ?Hc.
Qed.

Lemma all_chars_trimEnd p s : all_chars p s -> all_chars p (trimEnd s).
Proof.
elim: s => [|c s IH] //= /andP [Hc /IH].
case: (trimEnd s) => [|c' s'] /=; first by case: ifP => _ //=; rewrite Hc.
by rewrite Hc.
Qed.

Lemma all_chars_substring p n m s :
  all_chars p s -> all_chars p (String.substring n m s).
Proof.
elim: s n m => [|c s IH] [|n] [|m] //= /andP [Hc Hs].
- by rewrite Hc IH.
- exact: IH.
- exact: IH.
Qed.

Lemma all_chars_replace s : all_chars notLF (replace_LF_space s).
Proof.
elim: s => [|c s IH] //=; rewrite IH andbT /notLF.
by case E: (Ascii.eqb c LF) => //; rewrite E.
Qed.

Lemma length_append s t :
  String.length (String.append s t) = String.length s + String.length t.
Proof. by elim: s => [|c s IH] //=; rewrite IH. Qed.

Lemma length_replace s : String.length (replace_LF_space s) = String.length s.
Proof. by elim: s => [|c s IH] //=; rewrite IH. Qed.

Lemma length_trimStart s : String.length (trimStart s) <= String.length s.
Proof.
elim: s => [|c s IH] //=; case: ifP => _ //=.
exact: leq_trans IH (leqnSn _).
Qed.

Lemma length_trimEnd s : String.length (trimEnd s) <= String.length s.
Proof.
elim: s => [|c s IH] //=; case: (trimEnd s) IH => [|c' s'] /= IH //.
by case: ifP.
Qed.

Lemma length_substring0 m s :
  String.length (String.substring 0 m s) = minn m (String.length s).
Proof.
elim: s m => [|c s IH] [|m] //=.
by rewrite IH minnSS.
Qed.

(** X22. A preview is one line and short: [getPreview] never returns a
    line feed, and its length is at most [previewLength] (or zero when that
    is negative) plus the three dots, and at most the length of the content
    plus three. *)
Theorem preview_is_short_single_line st content :
  [/\ all_chars notLF (getPreview st content),
      (Z.of_nat (String.length (getPreview st content))
       <= Z.max 0 (previewLength (config st)) + 3)%Z
    & String.length (getPreview st content) <= String.length content + 3].
Proof.
rewrite /getPreview /String_trim.
set line := trimEnd _.
have Hline : all_chars notLF line.
  exact/all_chars_trimEnd/all_chars_trimStart/all_chars_replace.
have Hlen : String.length line <= String.length content.
  apply: leq_trans (length_trimEnd _) _.
  by apply: leq_trans (length_trimStart _) _; rewrite length_replace.
case: Z.gtb_spec => Hcmp; split=> //.
- by rewrite all_chars_append all_chars_substring.
- rewrite length_append /substring0 length_substring0 /=.
  have /leP := geq_minl (Z.to_nat (previewLength (config st)))
                        (String.length line).
  by rewrite -plusE; lia.
- rewrite length_append /substring0 length_substring0 /= leq_add2r.
  exact: leq_trans (geq_minr _ _) Hlen.
- by lia.
- exact: leq_trans Hlen (leq_addr _ _).
Qed.

Lemma nested_floors (d : Z) :
  [/\ (d / 1000 / 60 = d / 60000)%Z,
      (d / 1000 / 60 / 60 = d / 3600000)%Z
    & (d / 1000 / 60 / 60 / 24 = d / 86400000)%Z].
Proof. by split; rewrite !Z.div_div. Qed.

Lemma floor_positive (d k : Z) :
  (0 < k)%Z -> ((d / k >? 0)%Z = (k <=? d)%Z) /\ ((d / k >? 1)%Z = (2 * k <=? d)%Z).
Proof.
move=> Hk; split.
  case: Z.gtb_spec => H; case: Z.leb_spec => H' //.
    by have := Z.div_lt_upper_bound d k 1; lia.
  by have := Z.div_le_lower_bound d k 1; lia.
case: Z.gtb_spec => H; case: Z.leb_spec => H' //.
  by have := Z.div_lt_upper_bound d k 2; lia.
by have := Z.div_le_lower_bound d k 2; lia.
Qed.

(** X23. [getRelativeTime] of the quick pick, by the milliseconds that
    have passed: under a minute, and for a timestamp in the future, it says
    "just now"; from one minute, one hour and one day on it counts whole
    minutes, hours and days of the difference itself, with the plural from
    two on. *)
Theorem relative_time_by_milliseconds (dateNow timestamp : Z) :
  let d := (dateNow - timestamp)%Z in
  let unit n name twice :=
    String.append (Number_toString n)
      (String.append name
         (String.append (if twice then "s"%string else EmptyString)
                        " ago"%string)) in
  Extension.getRelativeTime dateNow timestamp =
  if (86400000 <=? d)%Z
  then unit (d / 86400000)%Z " day"%string (2 * 86400000 <=? d)%Z
  else if (3600000 <=? d)%Z
  then unit (d / 3600000)%Z " hour"%string (2 * 3600000 <=? d)%Z
  else if (60000 <=? d)%Z
  then unit (d / 60000)%Z " minute"%string (2 * 60000 <=? d)%Z
  else "just now"%string.
Proof.
rewrite /= /Extension.getRelativeTime.
have [-> -> ->] := nested_floors (dateNow - timestamp).
have [-> ->] := @floor_positive (dateNow - timestamp) 86400000 erefl.
have [-> ->] := @floor_positive (dateNow - timestamp) 3600000 erefl.
by have [-> ->] := @floor_positive (dateNow - timestamp) 60000 erefl.
Qed.

(** X24. The tree view's [getRelativeTime] picks the same unit and the
    same number from the milliseconds that have passed. *)
Theorem tree_relative_time_by_milliseconds (dateNow timestamp : Z) :
  let d := (dateNow - timestamp)%Z in
  ClipboardTreeItem.getRelativeTime dateNow timestamp =
  if (86400000 <=? d)%Z
  then String.append (Number_toString (d / 86400000)) "d ago"
  else if (3600000 <=? d)%Z
  then String.append (Number_toString (d / 3600000)) "h ago"
  else if (60000 <=? d)%Z
  then String.append (Number_toString (d / 60000)) "m ago"
  else "just now"%string.
Proof.
rewrite /= /ClipboardTreeItem.getRelativeTime.
have [-> -> ->] := nested_floors (dateNow - timestamp).
have [-> _] := @floor_positive (dateNow - timestamp) 86400000 erefl.
have [-> _] := @floor_positive (dateNow - timestamp) 3600000 erefl.
by have [-> _] := @floor_positive (dateNow - timestamp) 60000 erefl.
Qed.

End Formatting.

(** ** Storage statistics and ids *)

Section StatsAndIds.
Variable RegExp : string -> string -> option (string -> bool).

Lemma wellStored_perform op st :
  wellStored (globalState st) ->
  wellStored (globalState (perform RegExp op st)).
Proof.
case: op => [cfg dateNow read|read c|c content sf|i|i||i|cfg|] Hst /=.
- by rewrite /initialize /cleanupOldEntries /=; case: ifP => _; case: read.
- case: (timer st) => // _; case: read => [cur|] //=.
  case: ifP => // _; case: ifP => // _; case: ifP => // _.
  by rewrite globalState_addEntry.
- by rewrite globalState_addEntry.
- by rewrite /deleteEntry; case: (Array_findIndex _ _).
- by rewrite /togglePin; case: (Array_find _ _).
- by [].
- by rewrite /copyToClipboard; case: (Array_find _ _).
- by rewrite /updateConfig /stopMonitoring /=; case: (timer st).
- by rewrite /dispose /stopMonitoring; case: (timer st).
Qed.

Lemma wellStored_reachable st :
  reachable RegExp st -> wellStored (globalState st).
Proof. by elim=> [cfg|op st' _ IH] //; apply: wellStored_perform. Qed.

(** X25. The entry count of [getStorageStats].  In every reachable state
    it is the length of the list in memory and the call does not raise;
    on a stored record without an [entries] field, where [loadHistory]
    answers with the empty list, reading the count raises. *)
Theorem storage_stats_count_entries st :
  reachable RegExp st ->
  StorageManager.getStorageStats_entryCount (globalState st)
  = Some (size (getEntries st))
  /\ forall m data,
       Memento_get m STORAGE_KEY = Some data -> stored_entries data = None ->
       StorageManager.getStorageStats_entryCount m = None
       /\ StorageManager.loadHistory m = [::].
Proof.
move=> Hst; split; last first.
  move=> m data.
  by rewrite /StorageManager.getStorageStats_entryCount
             /StorageManager.loadHistory => -> ->.
have := sync_reachable Hst; have := wellStored_reachable Hst.
rewrite /wellStored /storedEntries /StorageManager.loadHistory
        /StorageManager.getStorageStats_entryCount /getEntries.
case: (Memento_get _ _) => [data|] /=; last by move=> _ <-.
by case: (stored_entries data) => //= es _ ->.
Qed.

Lemma digits_string_of_uint (u : uint) :
  all_chars notDash (NilEmpty.string_of_uint u).
Proof. by elim: u => //= u ->. Qed.

Lemma digits_Number_toString (n : Z) :
  (0 <= n)%Z -> all_chars notDash (Number_toString n).
Proof.
case: n => [|p|p] // _; rewrite /Number_toString /=.
rewrite /NilZero.string_of_uint.
by case: (Pos.to_uint p) (digits_string_of_uint (Pos.to_uint p)).
Qed.

Lemma Number_toString_inj : injective Number_toString.
Proof.
move=> a b; rewrite /Number_toString => Hab.
have Hnil z : Z.to_int z <> Decimal.Pos Decimal.Nil
               /\ Z.to_int z <> Decimal.Neg Decimal.Nil.
  case: z => [|p|p] /=; split=> // -[];
    exact: DecimalPos.Unsigned.to_uint_nonnil.
apply: DecimalZ.to_int_inj.
have [Ha1 Ha2] := Hnil a; have [Hb1 Hb2] := Hnil b.
have := NilZero.isi _ Ha1 Ha2; rewrite Hab (NilZero.isi _ Hb1 Hb2).
by case.
Qed.

Lemma split_at_dash s1 s2 r1 r2 :
  all_chars notDash s1 -> all_chars notDash s2 ->
  String.append s1 (String "-" r1) = String.append s2 (String "-" r2) ->
  s1 = s2 /\ r1 = r2.
Proof.
elim: s1 s2 => [|c1 s1 IH] [|c2 s2] /=.
- by move=> _ _ [].
- by move=> _ /andP [Hc _] [Hd]; move: Hc; rewrite /notDash -Hd.
- by move=> /andP [Hc _] _ [Hd]; move: Hc; rewrite /notDash Hd.
- move=> /andP [_ H1] /andP [_ H2] [-> Hrest].
  by have [-> ->] := IH _ H1 H2 Hrest.
Qed.

(** X26. Ids tell captures apart: two captures whose clock readings are
    not negative get the same id from [generateId] only when both the clock
    reading and the random suffix are the same. *)
Theorem generateId_injective (c1 c2 : Capture) :
  (0 <= id_now c1)%Z -> (0 <= id_now c2)%Z ->
  generateId c1 = generateId c2 ->
  id_now c1 = id_now c2 /\ id_random c1 = id_random c2.
Proof.
move=> H1 H2; rewrite /generateId /=.
move/(split_at_dash (digits_Number_toString H1) (digits_Number_toString H2)).
by case=> /Number_toString_inj.
Qed.

End StatsAndIds.

(** ** Exclude patterns *)

Section Excluding.
Variable RegExp : string -> string -> option (string -> bool).

(** X27. A text is excluded exactly when one of the configured patterns
    compiles and matches it: a pattern that the [RegExp] constructor
    rejects is skipped, it neither excludes the text nor keeps the patterns
    after it from being tried. *)
Theorem invalid_patterns_are_skipped st content :
  shouldExclude RegExp st content <->
  exists pattern test,
    [/\ pattern \in excludePatterns (config st),
        RegExp pattern EmptyString = Some test & test content].
Proof.
rewrite /shouldExclude; split.
  move=> /hasP [pattern Hin].
  case E: (RegExp pattern EmptyString) => [test|] // Htest.
  by exists pattern, test.
move=> [pattern [test [Hin E Htest]]].
by apply/hasP; exists pattern => //; rewrite E.
Qed.

End Excluding.

(** ** The further properties on sample sessions *)

Section MoreSamples.
Local Open Scope string_scope.

Lemma store_follows_list_witness :
  let st := afterPinThenCopy defaultConfig in
  reachable literalRegExp st
  /\ StorageManager.loadHistory (globalState st) = [:: entryP; entryB].
Proof.
have Hr : reachable literalRegExp (afterPinThenCopy defaultConfig).
  exact: reachable_sample.
split; first exact: Hr.
by rewrite (store_follows_list Hr).
Defined.

Lemma restart_restores_history_witness :
  let st := afterPinThenCopy defaultConfig in
  reachable literalRegExp st
  /\ getEntries (perform literalRegExp
                   (Activate defaultConfig (3000 + sevenDays) (Some "")) st)
     = [:: entryP].
Proof.
have Hr : reachable literalRegExp (afterPinThenCopy defaultConfig).
  exact: reachable_sample.
split; first exact: Hr.
by rewrite (restart_restores_history _ _ _ Hr).
Defined.

Lemma baseline_follows_read_witness :
  let st := afterPinThenCopy defaultConfig in
  "P" <> "" /\
  lastClipboardContent
    (checkClipboard literalRegExp (Some "P") (captureAt 4000 "q") st) = "P".
Proof.
have Hne : "P" <> "" by [].
split; first exact: Hne.
exact: (@baseline_follows_read literalRegExp "P" _ _ Hne).
Defined.

Lemma tick_adds_only_fresh_text_witness :
  let st := afterPinThenCopy defaultConfig in
  let c := captureAt 4000 "c" in
  let e := capturedEntry literalRegExp c "C" None in
  (e \in entries (checkClipboard literalRegExp (Some "C") c st)
   /\ e \notin entries st)
  /\ "C" != lastClipboardContent st.
Proof.
split; first by split; vm_compute.
by case: (@tick_adds_only_fresh_text literalRegExp "C" (captureAt 4000 "c")
            (afterPinThenCopy defaultConfig)
            (capturedEntry literalRegExp (captureAt 4000 "c") "C" None)
            (erefl true) (erefl true)).
Defined.

Lemma copy_back_is_not_recaptured_witness :
  let st := afterPinThenCopy defaultConfig in
  (uniq [seq id x | x <- entries st] /\ entryB \in entries st)
  /\ lastClipboardContent (copyToClipboard "3000-b" st) = "B".
Proof.
split; first by split.
by case: (@copy_back_is_not_recaptured literalRegExp
            (afterPinThenCopy defaultConfig) entryB (captureAt 4000 "c")
            (erefl true) (erefl true)).
Defined.

Lemma deleteEntry_removes_first_match_witness :
  let st := afterPinThenCopy defaultConfig in
  "2000-p" \in [seq id x | x <- entries st]
  /\ exists l1 e l2,
       [/\ entries st = cat l1 (e :: l2), id e = "2000-p",
           "2000-p" \notin [seq id x | x <- l1],
           entries (deleteEntry "2000-p" st) = cat l1 l2
         & calls (deleteEntry "2000-p" st) =
           cat (calls st)
               [:: globalState_update
                     (Some (Stored_of (mkHistory (cat l1 l2)
                                         STORAGE_VERSION)));
                   onDidChange_fire]].
Proof.
split; first by [].
exact: (@deleteEntry_removes_first_match (afterPinThenCopy defaultConfig)
          "2000-p" (erefl true)).
Defined.

Lemma lookup_after_deleteEntry_witness :
  let st := afterPinThenCopy defaultConfig in
  uniq [seq id x | x <- entries st]
  /\ getEntry "3000-b" (deleteEntry "2000-p" st) = Some entryB.
Proof.
split; first by [].
by rewrite (@lookup_after_deleteEntry (afterPinThenCopy defaultConfig)
              "2000-p" "3000-b" (erefl true)).
Defined.

Lemma addEntry_evicts_the_tail_witness :
  let st := afterPinThenCopy oneEntryConfig in
  let c := captureAt 4000 "c" in
  (0 <= maxHistorySize (config st))%Z
  /\ unpinnedSegment (entries (addEntry literalRegExp c "C" None st))
     = [:: capturedEntry literalRegExp c "C" None].
Proof.
have H0 : (0 <= maxHistorySize (config (afterPinThenCopy oneEntryConfig)))%Z.
  by vm_compute.
split; first exact: H0.
by rewrite (addEntry_evicts_the_tail _ _ _ _ H0).
Defined.

Lemma addEntry_negative_limit_witness :
  let st := set_config negativeLimitConfig (afterPinThenCopy defaultConfig) in
  (maxHistorySize (config st) < 0)%Z
  /\ unpinnedCount (entries (addEntry literalRegExp (captureAt 4000 "c") "C"
                               None st))
     <= unpinnedCount (entries st).
Proof.
have H0 : (maxHistorySize
             (config (set_config negativeLimitConfig
                        (afterPinThenCopy defaultConfig))) < 0)%Z.
  by vm_compute.
split; first exact: H0.
by case: (@addEntry_negative_limit literalRegExp (captureAt 4000 "c") "C" None
            (set_config negativeLimitConfig (afterPinThenCopy defaultConfig))
            H0).
Defined.

Lemma lookup_after_addEntry_witness :
  let st := afterPinThenCopy defaultConfig in
  let c := captureAt 4000 "c" in
  ((1 <= maxHistorySize (config st))%Z
   /\ generateId c \notin [seq id e | e <- entries st])
  /\ getEntry "4000-c" (addEntry literalRegExp c "C" None st)
     = Some (capturedEntry literalRegExp c "C" None).
Proof.
have H1 : (1 <= maxHistorySize (config (afterPinThenCopy defaultConfig)))%Z.
  by vm_compute.
split; first by split.
exact: (@lookup_after_addEntry literalRegExp (captureAt 4000 "c") "C" None
          (afterPinThenCopy defaultConfig) H1 (erefl true)).
Defined.

Lemma togglePin_flips_one_flag_witness :
  let st := afterPinThenCopy defaultConfig in
  getEntry "3000-b" st = Some entryB
  /\ count isPinned (entries (togglePin "3000-b" st)) = 2.
Proof.
split; first by [].
case: (@togglePin_flips_one_flag (afterPinThenCopy defaultConfig) "3000-b"
         entryB (erefl _)) => _ _.
by rewrite addn0 => ->.
Defined.

Lemma lookup_after_togglePin_witness :
  let st := afterPinThenCopy defaultConfig in
  (uniq [seq id x | x <- entries st] /\ getEntry "2000-p" st = Some entryP)
  /\ getEntry "2000-p" (togglePin "2000-p" st) = Some (flipPinned entryP).
Proof.
split; first by split.
exact: (@lookup_after_togglePin (afterPinThenCopy defaultConfig) "2000-p"
          entryP (erefl true) (erefl _)).
Defined.

Lemma sweeps_compose_witness :
  let st := afterPinThenCopy defaultConfig in
  (2500 + sevenDays <= 3500 + sevenDays)%Z
  /\ entries (cleanupOldEntries (3500 + sevenDays)
                (cleanupOldEntries (2500 + sevenDays) st))
     = entries (cleanupOldEntries (3500 + sevenDays) st).
Proof.
have Hd : (2500 + sevenDays <= 3500 + sevenDays)%Z by [].
split; first exact: Hd.
by case: (@sweeps_compose (afterPinThenCopy defaultConfig) _ _ Hd).
Defined.

Lemma derived_fields_match_content_witness :
  let st := afterPinThenCopy defaultConfig in
  (reachable literalRegExp st /\ entryB \in getEntries st)
  /\ lineCount entryB = split_LF_length (content entryB).
Proof.
have Hr : reachable literalRegExp (afterPinThenCopy defaultConfig).
  exact: reachable_sample.
split; first by split.
by case: (@derived_fields_match_content literalRegExp
            (afterPinThenCopy defaultConfig) entryB Hr (erefl true)).
Defined.

Lemma pinned_entry_survives_witness :
  let st := afterPinThenCopy oneEntryConfig in
  let op := Tick (Some "C") (captureAt 4000 "c") in
  [/\ reachable literalRegExp st, entryP \in getEntries st, isPinned entryP
    & ~~ aimsAt entryP op]
  /\ entryP \in getEntries (perform literalRegExp op st).
Proof.
have Hr : reachable literalRegExp (afterPinThenCopy oneEntryConfig).
  exact: reachable_sample.
split; first by split.
exact: (@pinned_entry_survives literalRegExp (afterPinThenCopy oneEntryConfig)
          (Tick (Some "C") (captureAt 4000 "c")) entryP Hr
          (erefl true) (erefl true) (erefl true)).
Defined.

Lemma list_stays_newest_first_witness :
  clockNeverBehind literalRegExp copyThreePinLast
    (constructor Memento_empty defaultConfig)
  /\ sorted pinOrder
       (getEntries (run literalRegExp copyThreePinLast
                      (constructor Memento_empty defaultConfig))).
Proof.
have Hc : clockNeverBehind literalRegExp copyThreePinLast
            (constructor Memento_empty defaultConfig) by vm_compute.
split; first exact: Hc.
exact: (list_stays_newest_first Hc).
Defined.


Lemma storage_stats_count_entries_witness :
  let st := afterPinThenCopy defaultConfig in
  reachable literalRegExp st
  /\ StorageManager.getStorageStats_entryCount (globalState st) = Some 2.
Proof.
have Hr : reachable literalRegExp (afterPinThenCopy defaultConfig).
  exact: reachable_sample.
split; first exact: Hr.
by case: (@storage_stats_count_entries literalRegExp
            (afterPinThenCopy defaultConfig) Hr) => ->.
Defined.

Lemma generateId_injective_witness :
  let c1 := mkCapture 2000 "a" 2000 in
  let c2 := mkCapture 2000 "a" 2001 in
  [/\ (0 <= id_now c1)%Z, (0 <= id_now c2)%Z & generateId c1 = generateId c2]
  /\ id_random c1 = id_random c2.
Proof.
have H1 : (0 <= id_now (mkCapture 2000 "a" 2000))%Z by [].
have H2 : (0 <= id_now (mkCapture 2000 "a" 2001))%Z by [].
split; first by split.
by case: (@generateId_injective (mkCapture 2000 "a" 2000)
            (mkCapture 2000 "a" 2001) H1 H2 (erefl _)).
Defined.

End MoreSamples.
